(** * Schwartz-Hearst abbreviation extraction: a shallow embedding

    Embedding of [src/abbreviations/schwartz_hearst.py].  Python strings are
    lists of Unicode code points, Python integers are [Z] (indices may be
    negative and then count from the end, as in Python), exceptions are an
    explicit result type, and the abbreviation dictionary is a finite map
    keyed by the abbreviation text. *)

From Stdlib Require Import ZArith String Ascii.
From stdpp Require Import gmap list sorting.

Local Open Scope Z_scope.

(** ** Strings and the Unicode tables the program consults *)

Definition char := N.
Definition str := list char.

(** A string literal of the development, read as a Python [str]. *)
Definition py (s : string) : str := map N_of_ascii (list_ascii_of_string s).

Definition LPAREN : char := 40%N.
Definition RPAREN : char := 41%N.
Definition NEWLINE : char := 10%N.
Definition SPACE : char := 32%N.
Definition DOT : char := 46%N.

(** The Unicode character database is not part of the repository: the
    predicates and the case mapping the program calls are taken as a table.
    [lower] works on whole strings because Python's [str.lower] is neither
    length preserving nor context free. *)
Class Unicode := {
  isspace : char -> bool;      (* white space of [str.strip] and [str.split] *)
  isalnum : char -> bool;      (* [c.isalnum()] for a single character *)
  lower : str -> str;          (* [s.lower()] *)
  is_letter : char -> bool;    (* [\p{L}] of the [regex] module *)
  re_space : char -> bool      (* [\s] of the [regex] module *)
}.

(** ** Exceptions *)

Inductive reason :=
| UnbalancedParentheses         (* "Unbalanced parentheses: ..." *)
| FirstParenthesesIsRight       (* "First parentheses is right: ..." *)
| CandidateNotFound             (* "candiate ... not found" *)
| LessKeys                      (* "There are less keys in the tokens ..." *)
| AbbreviationLonger            (* "Abbreviation is longer than definition" *)
| AbbreviationIsFullWord        (* "Abbreviation is full word of definition" *)
| DefinitionNotFound            (* "definition ... was not found in ..." *)
| MinConstraint                 (* "did not meet min(|A|+5, |A|*2) constraint" *)
| UnbalancedDefinition.         (* "Unbalanced parentheses not allowed in a definition" *)

Inductive exn :=
| ValueError (r : reason)
| IndexError.

(** The outcome of a call: a value, a raised exception, or a loop of the
    model that was cut off before the Python loop ended. *)
Inductive result (A : Type) :=
| Ok (a : A)
| Raise (e : exn)
| OutOfFuel.
Arguments Ok {A} a.
Arguments Raise {A} e.
Arguments OutOfFuel {A}.

#[global] Instance result_bind : MBind result := fun A B k r =>
  match r with
  | Ok a => k a
  | Raise e => Raise e
  | OutOfFuel => OutOfFuel
  end.

(** ** Python sequence operations *)

Section Sequences.
Context {A : Type}.

Definition len (l : list A) : Z := Z.of_nat (length l).

(** Index normalisation of a slice bound. *)
Definition clamp_index (n i : Z) : Z :=
  if i <? 0 then Z.max 0 (i + n) else Z.min i n.

(** [l[start:stop]] *)
Definition slice (l : list A) (start stop : Z) : list A :=
  let a := clamp_index (len l) start in
  let b := clamp_index (len l) stop in
  take (Z.to_nat (b - a)) (drop (Z.to_nat a) l).

(** [l[:stop]] and [l[start:]] *)
Definition slice_to (l : list A) (stop : Z) : list A := slice l 0 stop.
Definition slice_from (l : list A) (start : Z) : list A := slice l start (len l).

(** [l[i]]; [None] stands for [IndexError]. *)
Definition getitem (l : list A) (i : Z) : option A :=
  let j := if i <? 0 then i + len l else i in
  if (0 <=? j) && (j <? len l) then l !! Z.to_nat j else None.
End Sequences.

Section Searching.
Context {A : Type} `{EqDecision A}.

Fixpoint find_in (x : A) (l : list A) (i : Z) : Z :=
  match l with
  | [] => -1
  | y :: r => if bool_decide (y = x) then i else find_in x r (i + 1)
  end.

(** [s.find(x, start)] for a one-character [x]; [-1] when absent. *)
Definition find (x : A) (l : list A) (start : Z) : Z :=
  let a := clamp_index (len l) start in
  find_in x (drop (Z.to_nat a) l) a.

(** [x in l] and [l.count(x)] for an element (a character of a string, or
    an item of a list). *)
Definition contains (x : A) (l : list A) : bool :=
  existsb (fun y => bool_decide (y = x)) l.

Definition count (x : A) (l : list A) : Z :=
  len (filter (fun y => y = x) l).

(** [l.index(x, start)]; [None] stands for [ValueError]. *)
Definition index (x : A) (l : list A) (start : Z) : option Z :=
  let i := find x l start in
  if i =? -1 then None else Some i.

Fixpoint is_prefix (p l : list A) : bool :=
  match p, l with
  | [], _ => true
  | _ :: _, [] => false
  | a :: p', b :: l' => bool_decide (a = b) && is_prefix p' l'
  end.

(** Occurrences of [sub] in [l], scanned left to right without overlap;
    [skip] positions are still covered by the previous occurrence. *)
Fixpoint count_sub (sub l : list A) (skip : nat) : Z :=
  match l with
  | [] => 0
  | _ :: r =>
      match skip with
      | S k => count_sub sub r k
      | O => if is_prefix sub l
             then 1 + count_sub sub r (length sub - 1)
             else count_sub sub r 0
      end
  end.

(** [s.count(sub)] for a string [sub]. *)
Definition str_count (l sub : list A) : Z :=
  match sub with
  | [] => len l + 1
  | _ => count_sub sub l 0
  end.
End Searching.

(** [sep.join(l)] *)
Fixpoint join (sep : str) (l : list str) : str :=
  match l with
  | [] => []
  | [x] => x
  | x :: r => x ++ sep ++ join sep r
  end.

(** [s.split(sep)] for a one-character separator. *)
Fixpoint split_on (sep : char) (s : str) : list str :=
  match s with
  | [] => [[]]
  | c :: r =>
      if bool_decide (c = sep) then [] :: split_on sep r
      else match split_on sep r with
           | h :: t => (c :: h) :: t
           | [] => [[c]]
           end
  end.

Section Whitespace.
Context `{U : Unicode}.

Fixpoint lstrip (s : str) : str :=
  match s with
  | [] => []
  | c :: r => if isspace c then lstrip r else s
  end.

Definition rstrip (s : str) : str := rev (lstrip (rev s)).

Definition strip (s : str) : str := rstrip (lstrip s).

(** [s.split()]: the maximal runs of non-space characters; [cur] is the
    run being read, last character first. *)
Fixpoint split_ws (cur : str) (s : str) : list str :=
  match s with
  | [] => match cur with [] => [] | _ => [rev cur] end
  | c :: r =>
      if isspace c
      then match cur with [] => split_ws [] r | _ => rev cur :: split_ws [] r end
      else split_ws (c :: cur) r
  end.

Definition split (s : str) : list str := split_ws [] s.

(** [s.isalnum()] for a string: non-empty and alphanumeric throughout. *)
Definition str_isalnum (s : str) : bool :=
  match s with
  | [] => false
  | _ => forallb isalnum s
  end.
End Whitespace.

#[global] Instance result_ret : MRet result := fun A a => Ok a.

(** ** The program *)

(** [class Candidate(str)]: a string value with the offsets it was cut at. *)
Record Candidate := mkCandidate {
  start : Z;
  stop : Z;
  value : str
}.

#[global] Instance Candidate_eq_dec : EqDecision Candidate.
Proof. solve_decision. Defined.

Section Program.
Context `{U : Unicode}.

(** [yield_lines_from_doc] *)
Definition yield_lines_from_doc (doc_text : str) : list str :=
  map strip (split_on NEWLINE doc_text).

(** One repetition of the group [\p{L}\.?\s?] at the head of [s]: every
    remainder it can leave, the longest first. *)
Definition re_group (s : str) : list str :=
  match s with
  | c :: r =>
      if is_letter c then
        let after_dot :=
          match r with
          | d :: r' => if bool_decide (d = DOT) then [r'] else []
          | [] => []
          end in
        flat_map (fun t =>
                    match t with
                    | w :: t' => if re_space w then [t'; t] else [t]
                    | [] => [t]
                    end) (after_dot ++ [r])
      else []
  | [] => []
  end.

(** [regex.match('(\p{L}\.?\s?){2,}', s)] as a truth value: the pattern
    matches at the start of [s] as soon as two repetitions do. *)
Definition re_match_abbrev (s : str) : bool :=
  existsb (fun t => match re_group t with [] => false | _ => true end)
          (re_group s).

Definition conditions (candidate : str) : result bool :=
  if re_match_abbrev (lstrip candidate) then Ok true
  else if (len candidate <? 2) || (len candidate >? 10) then Ok false
  else if len (split candidate) >? 2 then Ok false
  else if negb (existsb is_letter candidate) then Ok false
  else match getitem candidate 0 with
       | None => Raise IndexError
       | Some c => if negb (isalnum c) then Ok false else Ok true
       end.

(** The inner [while open:] loop of [best_candidates]; it ends with the
    index after the matching parenthesis, or with [None] when the read of
    [sentence[closeindex]] fails and [skip] is set. *)
Fixpoint find_close (fuel : nat) (sentence : str) (closeindex open : Z)
  : result (option Z) :=
  if open =? 0 then Ok (Some closeindex)
  else match fuel with
       | O => OutOfFuel
       | S fuel' =>
           match getitem sentence closeindex with
           | None => Ok None
           | Some char =>
               let open' :=
                 if bool_decide (char = LPAREN) then open + 1
                 else if bool_decide (char = RPAREN) then open - 1
                 else open in
               find_close fuel' sentence (closeindex + 1) open'
           end
       end.

(** The outer [while 1:] loop of [best_candidates], from the value of
    [closeindex] at the top of an iteration; the list holds the candidates
    in the order they are yielded. *)
Fixpoint best_candidates_loop (fuel : nat) (sentence : str) (closeindex : Z)
  : result (list Candidate) :=
  match fuel with
  | O => OutOfFuel
  | S fuel' =>
      let openindex := find LPAREN sentence (closeindex + 1) in
      if openindex =? -1 then Ok []
      else
        found ← find_close (S (length sentence)) sentence (openindex + 1) 1;
        match found with
        | None => best_candidates_loop fuel' sentence (openindex + 1)
        | Some closeindex' =>
            let start0 := openindex + 1 in
            let stop0 := closeindex' - 1 in
            let candidate0 := slice sentence start0 stop0 in
            let start1 := start0 + len candidate0 - len (lstrip candidate0) in
            let stop1 := stop0 - len candidate0 + len (rstrip candidate0) in
            let candidate := slice sentence start1 stop1 in
            good ← conditions candidate;
            rest ← best_candidates_loop fuel' sentence closeindex';
            Ok (if good : bool
                then mkCandidate start1 stop1 candidate :: rest
                else rest)
        end
  end.

(** [best_candidates]: both [raise] statements come before the first
    [yield], and nothing raises between two [yield]s ([conditions] returns
    for every string, see [conditions_total]), so a call either raises
    before any candidate is seen or yields the whole list. *)
Definition best_candidates (sentence : str) : result (list Candidate) :=
  if contains LPAREN sentence then
    if negb (count LPAREN sentence =? count RPAREN sentence)
    then Raise (ValueError UnbalancedParentheses)
    else if find LPAREN sentence 0 >? find RPAREN sentence 0
    then Raise (ValueError FirstParenthesesIsRight)
    else best_candidates_loop (S (length sentence)) sentence (-1)
  else Ok [].

(** [t[0]] as a one-character string. *)
Definition first_char (t : str) : result str :=
  match getitem t 0 with
  | None => Raise IndexError
  | Some c => Ok [c]
  end.

(** The [while count < candidate_freq:] loop of [get_definition]; it
    returns the final [startindex]. *)
Fixpoint get_definition_loop (fuel : nat) (firstchars : list str) (key : str)
    (candidate_freq count0 start0 startindex : Z) : result Z :=
  if count0 <? candidate_freq then
    match fuel with
    | O => OutOfFuel
    | S fuel' =>
        if Z.abs start0 >? len firstchars
        then Raise (ValueError CandidateNotFound)
        else
          let start1 := start0 - 1 in
          let startindex' :=
            match index key firstchars (len firstchars + start1) with
            | Some i => i
            | None => startindex
            end in
          let count1 := count key (slice_from firstchars startindex') in
          get_definition_loop fuel' firstchars key candidate_freq
                              count1 start1 startindex'
    end
  else Ok startindex.

Definition get_definition (candidate : Candidate) (sentence : str)
  : result Candidate :=
  let tokens := split (lower (slice_to sentence (start candidate - 2))) in
  c0 ← first_char (value candidate);
  let key := lower c0 in
  firstchars ← mapM first_char tokens;
  let definition_freq := count key firstchars in
  let candidate_freq := str_count (lower (value candidate)) key in
  if candidate_freq <=? definition_freq then
    startindex ← get_definition_loop (length firstchars + 2)%nat firstchars key
                   candidate_freq 0 0 (len firstchars - 1);
    let start0 := len (join [SPACE] (slice_to tokens startindex)) in
    let stop0 := start candidate - 1 in
    let candidate0 := slice sentence start0 stop0 in
    let start1 := start0 + len candidate0 - len (lstrip candidate0) in
    let stop1 := stop0 - len candidate0 + len (rstrip candidate0) in
    Ok (mkCandidate start1 stop1 (slice sentence start1 stop1))
  else Raise (ValueError LessKeys).

(** One pass through the body of the [while 1:] loop of
    [select_definition] either goes round again with new indices or leaves
    the loop through [break]. *)
Inductive sd_next :=
| Continue (sindex lindex : Z)
| Break (lindex : Z).

(** The two reads that open an iteration: [(shortchar, longchar)]. *)
Definition sd_read (definition abbrev : str) (sindex lindex : Z)
  : result (str * str) :=
  match getitem definition lindex with
  | None => Raise IndexError
  | Some lc =>
      let longchar := lower [lc] in
      match getitem abbrev sindex with
      | None => Raise IndexError
      | Some sc => Ok (lower [sc], longchar)
      end
  end.

Definition sd_step (definition abbrev : str) (sindex lindex : Z)
  : result sd_next :=
  chars ← sd_read definition abbrev sindex lindex;
  let '(shortchar, longchar) := chars in
  let sindex1 := if negb (str_isalnum shortchar) then sindex - 1 else sindex in
  if sindex1 =? -1 * len abbrev then
    if bool_decide (shortchar = longchar) then
      if lindex =? -1 * len definition then Ok (Break lindex)
      else match getitem definition (lindex - 1) with
           | None => Raise IndexError
           | Some c =>
               if negb (isalnum c) then Ok (Break lindex)
               else Ok (Continue sindex1 (lindex - 1))
           end
    else
      let lindex1 := lindex - 1 in
      if lindex1 =? -1 * (len definition + 1)
      then Raise (ValueError DefinitionNotFound)
      else Ok (Continue sindex1 lindex1)
  else
    if bool_decide (shortchar = longchar)
    then Ok (Continue (sindex1 - 1) (lindex - 1))
    else Ok (Continue sindex1 (lindex - 1)).

(** The alignment loop; it returns [lindex] at the [break]. *)
Fixpoint sd_loop (fuel : nat) (definition abbrev : str) (sindex lindex : Z)
  : result Z :=
  match fuel with
  | O => OutOfFuel
  | S fuel' =>
      next ← sd_step definition abbrev sindex lindex;
      match next with
      | Continue sindex' lindex' => sd_loop fuel' definition abbrev sindex' lindex'
      | Break lindex' => Ok lindex'
      end
  end.

(** The pairs [(shortchar, longchar)] that the successive iterations of
    the loop compare with [shortchar == longchar]: every iteration that
    gets past its two reads evaluates that comparison once. *)
Fixpoint sd_compared (fuel : nat) (definition abbrev : str) (sindex lindex : Z)
  : list (str * str) :=
  match fuel with
  | O => []
  | S fuel' =>
      match sd_read definition abbrev sindex lindex with
      | Ok chars =>
          chars ::
            match sd_step definition abbrev sindex lindex with
            | Ok (Continue sindex' lindex') =>
                sd_compared fuel' definition abbrev sindex' lindex'
            | _ => []
            end
      | _ => []
      end
  end.

(** Where the loop stands when it ends: the values of [sindex] and
    [lindex] at the top of the iteration that leaves it. *)
Fixpoint sd_last (fuel : nat) (definition abbrev : str) (sindex lindex : Z)
  : Z * Z :=
  match fuel with
  | O => (sindex, lindex)
  | S fuel' =>
      match sd_step definition abbrev sindex lindex with
      | Ok (Continue sindex' lindex') =>
          sd_last fuel' definition abbrev sindex' lindex'
      | _ => (sindex, lindex)
      end
  end.

(** The word-boundary test that guards the [break]. *)
Definition at_word_boundary (definition : str) (lindex : Z) : Prop :=
  lindex = -1 * len definition
  \/ exists c, getitem definition (lindex - 1) = Some c /\ isalnum c = false.

Definition select_definition (definition abbrev : Candidate) : result Candidate :=
  if len (value definition) <? len (value abbrev)
  then Raise (ValueError AbbreviationLonger)
  else if contains (value abbrev) (split (value definition))
  then Raise (ValueError AbbreviationIsFullWord)
  else
    lindex ← sd_loop (S (length (value definition)))
               (value definition) (value abbrev) (-1) (-1);
    let definition' :=
      mkCandidate (start definition) (stop definition)
        (slice (value definition) lindex (len (value definition))) in
    let tokens := len (split (value definition')) in
    let length := len (value abbrev) in
    if tokens >? Z.min (length + 5) (length * 2)
    then Raise (ValueError MinConstraint)
    else if negb (count LPAREN (value definition') =? count RPAREN (value definition'))
    then Raise (ValueError UnbalancedDefinition)
    else Ok definition'.

(** The variables of [extract_abbreviation_definition_pairs].  The
    dictionary is keyed by the text of the abbreviation: a [Candidate]
    hashes and compares as the string it extends. *)
Record state := mkState {
  abbrev_map : gmap str Candidate;
  omit : Z;
  written : Z
}.

Definition omitted (st : state) : state :=
  mkState (abbrev_map st) (omit st + 1) (written st).

(** The body of [for candidate in best_candidates(sentence):].  The
    handler around [get_definition] catches [ValueError] only; the
    handlers around [select_definition] catch [IndexError] and
    [ValueError]. *)
Definition process_candidate (sentence : str) (candidate : Candidate)
    (st : state) : result state :=
  match get_definition candidate sentence with
  | Raise (ValueError _) => Ok (omitted st)
  | Raise IndexError => Raise IndexError
  | OutOfFuel => OutOfFuel
  | Ok definition =>
      match select_definition definition candidate with
      | Raise IndexError => Ok (omitted st)
      | Raise (ValueError _) => Ok (omitted st)
      | OutOfFuel => OutOfFuel
      | Ok definition' =>
          Ok (mkState (<[value candidate := definition']> (abbrev_map st))
                      (omit st) (written st + 1))
      end
  end.

Fixpoint process_candidates (sentence : str) (candidates : list Candidate)
    (st : state) : result state :=
  match candidates with
  | [] => Ok st
  | candidate :: rest =>
      st' ← process_candidate sentence candidate st;
      process_candidates sentence rest st'
  end.

(** The body of [for i, sentence in sentence_iterator:]; [i] is only
    logged.  The outer handler catches the [ValueError] that
    [best_candidates] raises before its first candidate; the loop body
    lets no [ValueError] through (see [process_candidate]), so whatever
    else it raises leaves the function. *)
Definition process_sentence (sentence : str) (st : state) : result state :=
  match best_candidates sentence with
  | Raise (ValueError _) => Ok st
  | Raise IndexError => Raise IndexError
  | OutOfFuel => OutOfFuel
  | Ok candidates => process_candidates sentence candidates st
  end.

Fixpoint process_sentences (sentences : list str) (st : state) : result state :=
  match sentences with
  | [] => Ok st
  | sentence :: rest =>
      st' ← process_sentence sentence st;
      process_sentences rest st'
  end.

(** [extract_abbreviation_definition_pairs(doc_text=...)]; [None] is the
    call with neither argument.  Reading a file is outside the model. *)
Definition extract_abbreviation_definition_pairs (doc_text : option str)
  : result (gmap str Candidate) :=
  match doc_text with
  | Some (c :: text) =>
      st ← process_sentences (yield_lines_from_doc (c :: text))
             (mkState ∅ 0 0);
      Ok (abbrev_map st)
  | _ => Ok ∅
  end.
End Program.

(** ** Vocabulary of the statements *)

Section Vocabulary.
Context `{U : Unicode}.

(** A candidate cut from [sentence] at its own offsets that passed
    [conditions]. *)
Definition accepted_in (sentence : str) (candidate : Candidate) : Prop :=
  value candidate = slice sentence (start candidate) (stop candidate)
  /\ conditions (value candidate) = Ok true.

(** The abbreviation starts with a character whose lower-case form is
    alphanumeric: what [conditions] is meant to guarantee. *)
Definition alnum_head (abbrev : str) : Prop :=
  exists c r, abbrev = c :: r /\ str_isalnum (lower [c]) = true.

(** How the alignment loop can end, with the indices [last] it ends at. *)
Definition sd_outcome (definition abbrev : str) (last : Z * Z)
    (r : result Z) : Prop :=
  match r with
  | Ok lindex =>
      lindex = last.2
      /\ - len definition <= lindex <= -1
      /\ at_word_boundary definition lindex
  | Raise (ValueError r) =>
      r = DefinitionNotFound /\ last.2 = - len definition
  | Raise IndexError =>
      last.2 = - len definition - 1
      \/ (- len definition <= last.2 <= -1
          /\ getitem abbrev last.1 = None
          /\ ~ alnum_head abbrev)
  | OutOfFuel => False
  end.

(** The dictionary a line gives when it is processed on its own. *)
Definition defined_on (sentence : str) : result (gmap str Candidate) :=
  st ← process_sentence sentence (mkState ∅ 0 0);
  Ok (abbrev_map st).

(** The two ways the alignment loop is said to end: through [break] at a
    word boundary, or in a failure with the definition read to its first
    character. *)
Definition sd_outcome_claimed (definition : str) (last : Z * Z)
    (r : result Z) : Prop :=
  match r with
  | Ok lindex =>
      lindex = last.2
      /\ - len definition <= lindex <= -1
      /\ at_word_boundary definition lindex
  | Raise _ => last.2 <= - len definition
  | OutOfFuel => False
  end.

(** The candidate is the trimmed text between a parenthesis of the
    sentence and a closing parenthesis after it, and that text has as many
    opening as closing parentheses. *)
Definition enclosed_in (sentence : str) (candidate : Candidate) : Prop :=
  exists openindex closeindex,
    0 <= openindex < closeindex /\ closeindex < len sentence
    /\ getitem sentence openindex = Some LPAREN
    /\ getitem sentence closeindex = Some RPAREN
    /\ count LPAREN (slice sentence (openindex + 1) closeindex)
       = count RPAREN (slice sentence (openindex + 1) closeindex)
    /\ value candidate = strip (slice sentence (openindex + 1) closeindex)
    /\ openindex < start candidate /\ stop candidate <= closeindex.

(** The span of a candidate: inside the sentence, not empty, and cut
    without white space at either end. *)
Definition well_cut (sentence : str) (candidate : Candidate) : Prop :=
  1 <= start candidate < stop candidate
  /\ stop candidate < len sentence
  /\ value candidate = slice sentence (start candidate) (stop candidate)
  /\ strip (value candidate) = value candidate.

(** The lower-case form of one character, as the alignment loop takes it. *)
Definition lower1 (c : char) : str := lower [c].

(** The pair was produced on the sentence: the candidate finder yields a
    candidate with the text [abbrev], the locator returns a definition for
    it, and the validator turns that one into [definition]. *)
Definition produced_on (sentence : str) (abbrev : str) (definition : Candidate)
  : Prop :=
  exists candidates candidate located,
    best_candidates sentence = Ok candidates
    /\ candidate ∈ candidates
    /\ value candidate = abbrev
    /\ get_definition candidate sentence = Ok located
    /\ select_definition located candidate = Ok definition.

(** The number of candidates the finder yields over a list of sentences. *)
Fixpoint candidates_yielded (sentences : list str) : Z :=
  match sentences with
  | [] => 0
  | sentence :: rest =>
      match best_candidates sentence with
      | Ok candidates => len candidates
      | _ => 0
      end + candidates_yielded rest
  end.

(** The closing parenthesis that ends the candidate is the one that closes
    the parenthesis opening it: the text between the two has as many
    opening as closing parentheses, and read from behind the opening
    parenthesis, the text up to any place in front of the closing one has
    not closed more parentheses than it has opened.  So the nesting, one
    behind the opening parenthesis, stays at one or above up to the closing
    parenthesis and falls to zero there for the first time. *)
Definition matched_in (sentence : str) (candidate : Candidate) : Prop :=
  exists openindex closeindex,
    0 <= openindex < closeindex /\ closeindex < len sentence
    /\ getitem sentence openindex = Some LPAREN
    /\ getitem sentence closeindex = Some RPAREN
    /\ value candidate = strip (slice sentence (openindex + 1) closeindex)
    /\ count LPAREN (slice sentence (openindex + 1) closeindex)
       = count RPAREN (slice sentence (openindex + 1) closeindex)
    /\ forall k, openindex + 1 <= k <= closeindex ->
         count RPAREN (slice sentence (openindex + 1) k)
         <= count LPAREN (slice sentence (openindex + 1) k).

End Vocabulary.

(** ** The tables on ASCII text

    What [str.isspace], [str.isalnum], [str.lower] and the classes [\p{L}]
    and [\s] of the [regex] module give on code points below 128.  The
    table is used on ASCII inputs only; every statement that does not name
    it holds for all tables. *)

Definition in_range (lo hi c : N) : bool := ((lo <=? c) && (c <=? hi))%N.

Definition ascii_isspace (c : char) : bool := in_range 9 13 c || in_range 28 32 c.
Definition ascii_is_letter (c : char) : bool := in_range 65 90 c || in_range 97 122 c.
Definition ascii_isalnum (c : char) : bool := in_range 48 57 c || ascii_is_letter c.
Definition ascii_lower (s : str) : str :=
  map (fun c => if in_range 65 90 c then (c + 32)%N else c) s.
Definition ascii_re_space (c : char) : bool := in_range 9 13 c || bool_decide (c = SPACE).

Definition ascii_tables : Unicode :=
  {| isspace := ascii_isspace;
     isalnum := ascii_isalnum;
     lower := ascii_lower;
     is_letter := ascii_is_letter;
     re_space := ascii_re_space |}.

(** ** Facts about the sequence operations *)

Section Basics.
Context {A : Type}.
Implicit Types l : list A.

Lemma len_nonneg l : 0 <= len l.
Proof. unfold len. lia. Qed.

Lemma len_nil : len (@nil A) = 0.
Proof. reflexivity. Qed.

Lemma len_cons (x : A) l : len (x :: l) = len l + 1.
Proof. unfold len. simpl. lia. Qed.

Lemma len_app l1 l2 : len (l1 ++ l2) = len l1 + len l2.
Proof. unfold len. rewrite length_app. lia. Qed.

Lemma clamp_index_range n i : 0 <= n -> 0 <= clamp_index n i <= n.
Proof. unfold clamp_index. intros Hn. destruct (i <? 0) eqn:E; lia. Qed.

Lemma len_slice_le l a b : len (slice l a b) <= len l.
Proof.
  unfold slice, len. rewrite length_take, length_drop. lia.
Qed.

Lemma getitem_Some_range l i x :
  getitem l i = Some x -> - len l <= i < len l.
Proof.
  unfold getitem. pose proof (len_nonneg l).
  destruct (i <? 0) eqn:Ei;
    destruct (_ && _) eqn:E; try discriminate; intros _;
    apply andb_true_iff in E as [E1 E2]; lia.
Qed.

Lemma getitem_is_Some l i :
  - len l <= i < len l -> is_Some (getitem l i).
Proof.
  unfold getitem. intros Hi.
  destruct (i <? 0) eqn:Ei.
  - replace ((0 <=? i + len l) && (i + len l <? len l)) with true
      by (symmetry; apply andb_true_iff; lia).
    apply lookup_lt_is_Some. unfold len in *. lia.
  - replace ((0 <=? i) && (i <? len l)) with true
      by (symmetry; apply andb_true_iff; lia).
    apply lookup_lt_is_Some. unfold len in *. lia.
Qed.

Lemma getitem_None_range l i :
  getitem l i = None -> i < - len l \/ len l <= i.
Proof.
  intros Hn. destruct (decide (- len l <= i < len l)) as [Hi|Hi]; [|lia].
  apply getitem_is_Some in Hi as [x Hx]. congruence.
Qed.

Lemma getitem_0 l : getitem l 0 = head l.
Proof. destruct l; reflexivity || (unfold getitem, len; simpl; reflexivity). Qed.
End Basics.

Section FindFacts.
Context {A : Type} `{EqDecision A}.
Implicit Types l : list A.

Lemma find_in_range (x : A) l i :
  find_in x l i = -1 \/ i <= find_in x l i < i + len l.
Proof.
  revert i. induction l as [|y r IH]; intros i; simpl; [by left|].
  rewrite len_cons. pose proof (len_nonneg r).
  case_bool_decide; [right; lia|].
  destruct (IH (i + 1)) as [->|?]; [by left|right; lia].
Qed.

Lemma find_range (x : A) l i :
  0 <= i -> find x l i = -1 \/ (i <= find x l i < len l).
Proof.
  intros Hi. unfold find.
  pose proof (len_nonneg l) as Hl.
  pose proof (clamp_index_range (len l) i Hl) as Hc.
  destruct (find_in_range x (drop (Z.to_nat (clamp_index (len l) i)) l)
              (clamp_index (len l) i)) as [->|Hr]; [by left|right].
  assert (clamp_index (len l) i = Z.min i (len l)) as Hm.
  { unfold clamp_index. destruct (i <? 0) eqn:E; lia. }
  unfold len in *. rewrite length_drop in Hr. lia.
Qed.
End FindFacts.

(** ** Tokens, first characters and [conditions] *)

Section SplitFacts.
Context `{U : Unicode}.

Lemma split_ws_nonempty cur s t :
  t ∈ split_ws cur s -> t ≠ [].
Proof.
  revert cur. induction s as [|c r IH]; intros cur; simpl.
  - destruct cur as [|a cur]; [by intros ?%elem_of_nil|].
    intros ->%list_elem_of_singleton. simpl.
    intros Hnil. apply (f_equal length) in Hnil.
    rewrite length_app in Hnil. simpl in Hnil. lia.
  - destruct (isspace c).
    + destruct cur as [|a cur]; [apply IH|].
      intros [->|Hin]%elem_of_cons; [|by eapply IH].
      simpl. intros Hnil. apply (f_equal length) in Hnil.
      rewrite length_app in Hnil. simpl in Hnil. lia.
    + apply IH.
Qed.

Lemma split_ws_length cur s t :
  t ∈ split_ws cur s -> (length t <= length cur + length s)%nat.
Proof.
  revert cur. induction s as [|c r IH]; intros cur; simpl.
  - destruct cur as [|a cur]; [by intros ?%elem_of_nil|].
    intros ->%list_elem_of_singleton. rewrite length_rev. lia.
  - destruct (isspace c).
    + destruct cur as [|a cur].
      * intros Hin%IH. simpl in *. lia.
      * intros [->|Hin%IH]%elem_of_cons; [rewrite length_rev|]; simpl in *; lia.
    + intros Hin%IH. simpl in *. lia.
Qed.

Lemma split_nonempty s t : t ∈ split s -> t ≠ [].
Proof. apply split_ws_nonempty. Qed.

Lemma split_length s t : t ∈ split s -> len t <= len s.
Proof. intros Hin%split_ws_length. unfold len. simpl in Hin. lia. Qed.

Lemma contains_elem_of (x : str) (l : list str) :
  contains x l = true <-> x ∈ l.
Proof.
  unfold contains. rewrite existsb_exists. split.
  - intros (y & Hy & Heq). apply bool_decide_eq_true in Heq as ->.
    by apply list_elem_of_In.
  - intros Hin. exists x. split; [by apply list_elem_of_In|].
    by apply bool_decide_eq_true.
Qed.

Lemma mapM_first_char (tokens : list str) :
  (forall t, t ∈ tokens -> t ≠ []) ->
  exists firstchars, mapM first_char tokens = Ok firstchars
                     /\ length firstchars = length tokens.
Proof.
  induction tokens as [|t r IH]; intros Hne.
  - by exists [].
  - destruct IH as (fc & Hfc & Hlen).
    { intros t' Hin. apply Hne. by right. }
    destruct t as [|c t]; [exfalso; apply (Hne []); [by left|done]|].
    exists ([c] :: fc). split; [|simpl; by rewrite Hlen].
    simpl. rewrite Hfc. reflexivity.
Qed.

Lemma conditions_total candidate : exists b, conditions candidate = Ok b.
Proof.
  unfold conditions.
  destruct (re_match_abbrev _); [by eexists|].
  destruct (_ || _) eqn:Hlen; [by eexists|].
  destruct (_ >? 2); [by eexists|].
  destruct (negb (existsb _ _)); [by eexists|].
  rewrite getitem_0. destruct candidate as [|c r]; simpl.
  - exfalso. cbn in Hlen. discriminate.
  - destruct (isalnum c); by eexists.
Qed.

Lemma re_group_nonempty s : re_group s ≠ [] -> s ≠ [].
Proof. by destruct s. Qed.

Lemma conditions_true_nonempty candidate :
  conditions candidate = Ok true -> candidate ≠ [].
Proof.
  unfold conditions. intros Hc ->. simpl in Hc.
  cbn in Hc. discriminate.
Qed.
End SplitFacts.

(** ** The candidate finder returns, and what it returns *)

Section CandidateFinderFacts.
Context `{U : Unicode}.

Lemma find_close_total fuel sentence closeindex open :
  0 <= closeindex <= len sentence ->
  len sentence - closeindex < Z.of_nat fuel ->
  exists found, find_close fuel sentence closeindex open = Ok found
    /\ forall c, found = Some c -> closeindex <= c <= len sentence.
Proof.
  revert closeindex open.
  induction fuel as [|fuel IH]; intros closeindex open Hc Hfuel; simpl.
  - lia.
  - destruct (open =? 0).
    { eexists; split; [done|]. intros c [= <-]. lia. }
    destruct (getitem sentence closeindex) as [char|] eqn:Hget.
    + apply getitem_Some_range in Hget.
      destruct (IH (closeindex + 1)
                  (if bool_decide (char = LPAREN) then open + 1
                   else if bool_decide (char = RPAREN) then open - 1 else open))
        as (found & -> & Hfound); [lia..|].
      eexists; split; [done|]. intros c Hc'. apply Hfound in Hc'. lia.
    + eexists; split; [done|]. intros c [=].
Qed.

Local Arguments find_close : simpl never.
Local Arguments conditions : simpl never.
Local Arguments find : simpl never.
Local Arguments slice : simpl never.

Lemma best_candidates_loop_total fuel sentence closeindex :
  -1 <= closeindex <= len sentence ->
  (1 <= fuel)%nat ->
  len sentence - closeindex <= Z.of_nat fuel ->
  exists candidates, best_candidates_loop fuel sentence closeindex = Ok candidates.
Proof.
  revert closeindex.
  induction fuel as [|fuel IH]; intros closeindex Hc Hone Hfuel; [lia|].
  simpl.
  destruct (find_range LPAREN sentence (closeindex + 1)) as [->|Hopen]; [lia| |].
  { simpl. by eexists. }
  destruct (_ =? -1) eqn:Hm; [by eexists|].
  set (openindex := find LPAREN sentence (closeindex + 1)) in *.
  destruct (find_close_total (S (length sentence)) sentence (openindex + 1) 1)
    as (found & -> & Hfound); [lia|unfold len; lia|].
  simpl. destruct found as [closeindex'|].
  - specialize (Hfound _ eq_refl).
    destruct (conditions_total
                (slice sentence
                   (openindex + 1 + len (slice sentence (openindex + 1) (closeindex' - 1))
                    - len (lstrip (slice sentence (openindex + 1) (closeindex' - 1))))
                   (closeindex' - 1 - len (slice sentence (openindex + 1) (closeindex' - 1))
                    + len (rstrip (slice sentence (openindex + 1) (closeindex' - 1))))))
      as [good ->].
    simpl.
    destruct (IH closeindex') as [rest ->]; [lia..|].
    simpl. by eexists.
  - apply IH; lia.
Qed.

Lemma best_candidates_total sentence :
  (exists candidates, best_candidates sentence = Ok candidates)
  \/ (exists r, best_candidates sentence = Raise (ValueError r)).
Proof.
  unfold best_candidates.
  destruct (contains _ _); [|left; by eexists].
  destruct (negb _); [right; by eexists|].
  destruct (_ >? _); [right; by eexists|].
  left. apply best_candidates_loop_total;
    pose proof (len_nonneg sentence); unfold len in *; lia.
Qed.

Lemma best_candidates_loop_spec fuel sentence closeindex candidates :
  best_candidates_loop fuel sentence closeindex = Ok candidates ->
  Forall (accepted_in sentence) candidates.
Proof.
  revert closeindex candidates.
  induction fuel as [|fuel IH]; intros closeindex candidates; simpl; [done|].
  destruct (_ =? -1); [by intros [= <-]|].
  destruct (find_close _ _ _ _) as [[closeindex'|]| |]; simpl; try done.
  - destruct (conditions _) as [good| |] eqn:Hgood; simpl; try done.
    destruct (best_candidates_loop fuel sentence closeindex')
      as [rest| |] eqn:Hrest; simpl; try done.
    intros [= <-]. apply IH in Hrest. destruct good; [|done].
    constructor; [by split|done].
  - apply IH.
Qed.

Lemma best_candidates_spec sentence candidates :
  best_candidates sentence = Ok candidates ->
  Forall (accepted_in sentence) candidates.
Proof.
  unfold best_candidates.
  destruct (contains _ _); [|by intros [= <-]].
  destruct (negb _); [done|]. destruct (_ >? _); [done|].
  apply best_candidates_loop_spec.
Qed.
End CandidateFinderFacts.

(** ** The definition locator returns *)

Section LocatorFacts.
Context `{U : Unicode}.
Local Arguments slice : simpl never.
Local Arguments index : simpl never.
Local Arguments count : simpl never.

Lemma get_definition_loop_total fuel firstchars key candidate_freq count0 start0 startindex :
  start0 <= 0 ->
  (1 <= fuel)%nat ->
  len firstchars + start0 + 2 <= Z.of_nat fuel ->
  (exists i, get_definition_loop fuel firstchars key candidate_freq
               count0 start0 startindex = Ok i)
  \/ get_definition_loop fuel firstchars key candidate_freq
       count0 start0 startindex = Raise (ValueError CandidateNotFound).
Proof.
  revert count0 start0 startindex.
  induction fuel as [|fuel IH]; intros count0 start0 startindex Hs Hone Hfuel; [lia|].
  simpl. destruct (count0 <? candidate_freq); [|left; by eexists].
  destruct (Z.abs start0 >? len firstchars) eqn:Habs; [by right|].
  apply IH; lia.
Qed.

Lemma first_char_cons (c : char) (r : str) : first_char (c :: r) = Ok [c].
Proof. unfold first_char. by rewrite getitem_0. Qed.

Lemma get_definition_total candidate sentence :
  value candidate ≠ [] ->
  (exists definition, get_definition candidate sentence = Ok definition
     /\ value definition = slice sentence (start definition) (stop definition))
  \/ (exists r, get_definition candidate sentence = Raise (ValueError r)).
Proof.
  intros Hne. unfold get_definition.
  destruct (value candidate) as [|c0 rest] eqn:Hv; [done|].
  rewrite first_char_cons. simpl.
  destruct (mapM_first_char
              (split (lower (slice_to sentence (start candidate - 2)))))
    as (firstchars & -> & Hlen); [apply split_nonempty|].
  simpl. destruct (_ <=? _); [|right; by eexists].
  destruct (get_definition_loop_total (length firstchars + 2) firstchars
              (lower [c0]) (str_count (lower (c0 :: rest)) (lower [c0]))
              0 0 (len firstchars - 1)) as [[i ->]| ->];
    [lia|lia|unfold len; lia| |].
  - left. simpl. eexists; split; [done|]. reflexivity.
  - right. by eexists.
Qed.
End LocatorFacts.

Section GetitemMore.
Context {A : Type}.

Lemma getitem_first (c : A) (r : list A) :
  getitem (c :: r) (- len (c :: r)) = Some c.
Proof.
  unfold getitem. pose proof (len_nonneg r). rewrite len_cons.
  replace (- (len r + 1) <? 0) with true by (symmetry; apply Z.ltb_lt; lia).
  replace (- (len r + 1) + (len r + 1)) with 0 by lia.
  replace ((0 <=? 0) && (0 <? len r + 1)) with true
    by (symmetry; apply andb_true_iff; lia).
  reflexivity.
Qed.
End GetitemMore.

(** ** The alignment loop of the definition validator *)

Section ValidatorFacts.
Context `{U : Unicode}.

Lemma sd_step_inv definition abbrev sindex lindex :
  match sd_step definition abbrev sindex lindex with
  | Ok (Continue sindex' lindex') =>
      lindex' = lindex - 1
      /\ - len definition <= lindex < len definition
      /\ sindex' <= sindex
      /\ (alnum_head abbrev -> - len abbrev <= sindex -> - len abbrev <= sindex')
  | Ok (Break lindex') =>
      lindex' = lindex
      /\ - len definition <= lindex < len definition
      /\ at_word_boundary definition lindex
  | Raise (ValueError r) =>
      r = DefinitionNotFound /\ lindex = - len definition
  | Raise IndexError =>
      getitem definition lindex = None
      \/ (- len definition <= lindex < len definition
          /\ getitem abbrev sindex = None)
  | OutOfFuel => False
  end.
Proof.
  unfold sd_step, sd_read.
  destruct (getitem definition lindex) as [lc|] eqn:Hlc; simpl; [|by left].
  pose proof (getitem_Some_range _ _ _ Hlc) as Hl.
  destruct (getitem abbrev sindex) as [sc|] eqn:Hsc; simpl; [|by right].
  pose proof (getitem_Some_range _ _ _ Hsc) as Hs.
  assert (alnum_head abbrev -> sindex = - len abbrev ->
          str_isalnum (lower [sc]) = true) as Hhead.
  { intros (c & r & -> & Hc) ->. rewrite getitem_first in Hsc.
    by injection Hsc as <-. }
  destruct (str_isalnum (lower [sc])) eqn:Halnum; simpl.
  - destruct (sindex =? -1 * len abbrev) eqn:Hend.
    + case_bool_decide.
      * destruct (lindex =? -1 * len definition) eqn:Hstart.
        { repeat split; try lia. left. lia. }
        destruct (getitem_is_Some definition (lindex - 1)) as [c Hc]; [lia|].
        rewrite Hc. destruct (isalnum c) eqn:Hcal; simpl.
        -- repeat split; lia.
        -- repeat split; try lia. right. by exists c.
      * destruct (_ =? -1 * (len definition + 1)) eqn:Hex.
        -- split; [done|lia].
        -- repeat split; lia.
    + case_bool_decide; repeat split; lia.
  - destruct (sindex - 1 =? -1 * len abbrev) eqn:Hend.
    + case_bool_decide.
      * destruct (lindex =? -1 * len definition) eqn:Hstart.
        { repeat split; try lia. left. lia. }
        destruct (getitem_is_Some definition (lindex - 1)) as [c Hc]; [lia|].
        rewrite Hc. destruct (isalnum c) eqn:Hcal; simpl.
        -- repeat split; lia.
        -- repeat split; try lia. right. by exists c.
      * destruct (_ =? -1 * (len definition + 1)) eqn:Hex.
        -- split; [done|lia].
        -- repeat split; lia.
    + case_bool_decide; repeat split; try lia.
      * intros Hh Hge.
        destruct (decide (sindex = - len abbrev)) as [Heq|Hne];
          [specialize (Hhead Hh Heq); congruence|lia].
      * intros Hh Hge.
        destruct (decide (sindex = - len abbrev)) as [Heq|Hne];
          [specialize (Hhead Hh Heq); congruence|lia].
Qed.

Lemma sd_loop_outcome fuel definition abbrev sindex lindex :
  - len definition - 1 <= lindex <= -1 ->
  (alnum_head abbrev -> - len abbrev <= sindex <= -1) ->
  sindex <= -1 ->
  (1 <= fuel)%nat ->
  len definition + lindex + 2 <= Z.of_nat fuel ->
  sd_outcome definition abbrev
    (sd_last fuel definition abbrev sindex lindex)
    (sd_loop fuel definition abbrev sindex lindex).
Proof.
  revert sindex lindex.
  induction fuel as [|fuel IH]; intros sindex lindex Hl Hs Hs1 Hone Hfuel; [lia|].
  simpl. pose proof (sd_step_inv definition abbrev sindex lindex) as Hstep.
  destruct (sd_step definition abbrev sindex lindex)
    as [[sindex' lindex'|lindex']|[r|]|]; simpl.
  - destruct Hstep as (-> & Hrange & Hle & Hkeep).
    apply IH; try lia.
    intros Hh. specialize (Hs Hh). specialize (Hkeep Hh). lia.
  - destruct Hstep as (-> & Hrange & Hb). repeat split; try done; lia.
  - done.
  - destruct Hstep as [Hnone|[Hrange Hnone]].
    + left. apply getitem_None_range in Hnone.
      pose proof (len_nonneg definition). lia.
    + right. repeat split; try lia; [done|].
      intros Hh. specialize (Hs Hh).
      destruct (getitem_is_Some abbrev sindex) as [x Hx]; [|congruence].
      destruct Hh as (c & r & -> & _). rewrite len_cons in *.
      pose proof (len_nonneg r). lia.
  - done.
Qed.

Lemma sd_loop_total definition abbrev :
  (exists lindex,
      sd_loop (S (length definition)) definition abbrev (-1) (-1) = Ok lindex
      /\ - len definition <= lindex <= -1)
  \/ (exists e, sd_loop (S (length definition)) definition abbrev (-1) (-1)
                = Raise e).
Proof.
  assert (alnum_head abbrev -> - len abbrev <= -1 <= -1) as Hs.
  { intros (c & r & -> & _). rewrite len_cons. pose proof (len_nonneg r). lia. }
  pose proof (len_nonneg definition) as Hlen.
  pose proof (sd_loop_outcome (S (length definition)) definition abbrev (-1) (-1))
    as Hout.
  destruct (sd_loop _ _ _ _ _) as [lindex|e|].
  - left. exists lindex. split; [done|].
    apply Hout; try done; unfold len in *; lia.
  - right. by eexists.
  - exfalso. apply Hout; try done; unfold len in *; lia.
Qed.

Lemma select_definition_total definition abbrev :
  (exists definition', select_definition definition abbrev = Ok definition')
  \/ (exists e, select_definition definition abbrev = Raise e).
Proof.
  unfold select_definition.
  destruct (_ <? _); [right; by eexists|].
  destruct (contains _ _); [right; by eexists|].
  destruct (sd_loop_total (value definition) (value abbrev))
    as [(lindex & -> & _)|[e ->]]; simpl; [|right; by eexists].
  destruct (_ >? _); [right; by eexists|].
  destruct (negb _); [right; by eexists|].
  left; by eexists.
Qed.
End ValidatorFacts.

(** ** The orchestrator *)

Section OrchestratorFacts.
Context `{U : Unicode}.

(** What one candidate does to the variables of the orchestrator: it is
    omitted, or one entry is written under its text.  Which of the two
    does not depend on the state it is run from. *)
Lemma process_candidate_cases sentence candidate :
  value candidate ≠ [] ->
  (forall st, process_candidate sentence candidate st = Ok (omitted st))
  \/ (exists definition,
        forall st, process_candidate sentence candidate st
                   = Ok (mkState (<[value candidate := definition]> (abbrev_map st))
                                 (omit st) (written st + 1))).
Proof.
  intros Hne. unfold process_candidate.
  destruct (get_definition_total candidate sentence Hne)
    as [(definition & -> & _)|[r ->]]; [|by left].
  destruct (select_definition_total definition candidate)
    as [[definition' ->]|[e ->]].
  - right. by exists definition'.
  - left. by destruct e.
Qed.

(** The body of the candidate loop lets no [ValueError] through, so the
    outer handler of the orchestrator only ever sees the one that
    [best_candidates] raises before its first candidate. *)
Lemma process_candidate_raises_no_ValueError sentence candidate st r :
  process_candidate sentence candidate st ≠ Raise (ValueError r).
Proof.
  unfold process_candidate.
  destruct (get_definition candidate sentence) as [definition|[r'|]|]; try done.
  by destruct (select_definition definition candidate) as [definition'|[r'|]|].
Qed.

Lemma process_candidates_total sentence candidates st :
  Forall (accepted_in sentence) candidates ->
  exists st', process_candidates sentence candidates st = Ok st'.
Proof.
  intros Hall. revert st.
  induction Hall as [|candidate rest [_ Hacc] _ IH]; intros st; simpl.
  - by eexists.
  - apply conditions_true_nonempty in Hacc.
    destruct (process_candidate_cases sentence candidate Hacc)
      as [->|[definition ->]]; simpl; apply IH.
Qed.

Lemma process_sentence_total sentence st :
  exists st', process_sentence sentence st = Ok st'.
Proof.
  unfold process_sentence.
  destruct (best_candidates_total sentence) as [[candidates Hc]|[r ->]];
    [|by eexists].
  rewrite Hc. by apply process_candidates_total, best_candidates_spec.
Qed.

Lemma process_sentences_total sentences st :
  exists st', process_sentences sentences st = Ok st'.
Proof.
  revert st. induction sentences as [|sentence rest IH]; intros st; simpl.
  - by eexists.
  - destruct (process_sentence_total sentence st) as [st' ->]. simpl. apply IH.
Qed.

(** The entries a run writes do not depend on the dictionary it starts
    from: run from [st0] instead of [st], it writes the same entries over
    whatever [st0] holds. *)
Lemma process_candidates_union sentence candidates st st' st0 base :
  process_candidates sentence candidates st = Ok st' ->
  abbrev_map st = abbrev_map st0 ∪ base ->
  exists st0', process_candidates sentence candidates st0 = Ok st0'
               /\ abbrev_map st' = abbrev_map st0' ∪ base.
Proof.
  revert st st0. induction candidates as [|candidate rest IH]; intros st st0; simpl.
  - intros [= <-] Hu. by exists st0.
  - unfold process_candidate.
    destruct (get_definition candidate sentence) as [definition|[r|]|]; simpl;
      try done.
    + destruct (select_definition definition candidate) as [definition'|[r|]|];
        simpl; try done; intros Hrest Hu; eapply IH; try exact Hrest; simpl;
        try done.
      rewrite Hu. by rewrite insert_union_l.
    + intros Hrest Hu. eapply IH; try exact Hrest; done.
Qed.

Lemma process_sentence_union sentence st st' st0 base :
  process_sentence sentence st = Ok st' ->
  abbrev_map st = abbrev_map st0 ∪ base ->
  exists st0', process_sentence sentence st0 = Ok st0'
               /\ abbrev_map st' = abbrev_map st0' ∪ base.
Proof.
  unfold process_sentence.
  destruct (best_candidates sentence) as [candidates|[r|]|]; try done.
  - apply process_candidates_union.
  - intros [= <-] Hu. by exists st0.
Qed.
End OrchestratorFacts.

(** ** Properties of the pipeline *)

Section Claims.
Context `{U : Unicode}.

Lemma process_sentences_app before after st :
  process_sentences (before ++ after) st
  = (st' ← process_sentences before st; process_sentences after st').
Proof.
  revert st. induction before as [|sentence rest IH]; intros st; simpl; [done|].
  destruct (process_sentence sentence st) as [st'| |]; simpl; [apply IH|done..].
Qed.

(** C10: for every document, and for the call without a document,
    [extract_abbreviation_definition_pairs] returns a dictionary: no
    exception of the three stages leaves it and no loop of it runs on. *)
Theorem extract_returns_a_map (doc_text : option str) :
  exists m, extract_abbreviation_definition_pairs doc_text = Ok m.
Proof.
  destruct doc_text as [[|c text]|]; simpl; try by eexists.
  destruct (process_sentences_total (yield_lines_from_doc (c :: text))
              (mkState ∅ 0 0)) as [st ->].
  by eexists.
Qed.

(** C5: a line whose counts of opening and closing parentheses differ
    gives no candidate; processing it leaves the dictionary and the
    counters as they were, and the document is processed as if the line
    were not there. *)
Theorem unbalanced_line_contributes_nothing (sentence : str) :
  count LPAREN sentence ≠ count RPAREN sentence ->
  (best_candidates sentence = Ok []
   \/ best_candidates sentence = Raise (ValueError UnbalancedParentheses))
  /\ (forall st, process_sentence sentence st = Ok st)
  /\ (forall before after st,
        process_sentences (before ++ sentence :: after) st
        = process_sentences (before ++ after) st)
  /\ (forall doc_text before after,
        doc_text ≠ [] ->
        yield_lines_from_doc doc_text = before ++ sentence :: after ->
        extract_abbreviation_definition_pairs (Some doc_text)
        = (st ← process_sentences (before ++ after) (mkState ∅ 0 0);
           Ok (abbrev_map st))).
Proof.
  intros Hcount.
  assert (best_candidates sentence = Ok []
          \/ best_candidates sentence = Raise (ValueError UnbalancedParentheses))
    as Hbest.
  { unfold best_candidates. destruct (contains _ _); [right|by left].
    apply Z.eqb_neq in Hcount. by rewrite Hcount. }
  assert (forall st, process_sentence sentence st = Ok st) as Hline.
  { intros st. unfold process_sentence. by destruct Hbest as [->| ->]. }
  assert (forall before after st,
             process_sentences (before ++ sentence :: after) st
             = process_sentences (before ++ after) st) as Hdoc.
  { intros before after st. rewrite !process_sentences_app.
    destruct (process_sentences before st) as [st'| |]; simpl; [|done..].
    by rewrite Hline. }
  repeat split; try done.
  intros doc_text before after Hne Hlines.
  destruct doc_text as [|c text]; [done|]. simpl.
  by rewrite Hlines, Hdoc.
Qed.
End Claims.

Lemma unbalanced_line_contributes_nothing_witness :
  count LPAREN (py "kept (AB") ≠ count RPAREN (py "kept (AB")
  /\ forall st, process_sentence (U := ascii_tables) (py "kept (AB") st = Ok st.
Proof.
  assert (count LPAREN (py "kept (AB") ≠ count RPAREN (py "kept (AB")) as Hw
    by (vm_compute; discriminate).
  split; [exact Hw|].
  apply (unbalanced_line_contributes_nothing (U := ascii_tables) _ Hw).
Defined.

(** The guard of [get_definition], on the tokens the code takes: when the
    key occurs more often in the candidate than at the head of the tokens
    of [sentence[:candidate.start - 2]], the "less keys" error is raised,
    the candidate is counted as omitted and the candidates after it on the
    line are processed as usual; the line "(WHO)" is such a case and
    leaves the dictionary as it was. *)
Theorem too_few_keys_candidate_dropped :
  (forall (U : Unicode) (sentence : str) (candidate : Candidate)
          (c0 : str) (firstchars : list str),
      first_char (value candidate) = Ok c0 ->
      mapM first_char (split (lower (slice_to sentence (start candidate - 2))))
      = Ok firstchars ->
      count (lower c0) firstchars < str_count (lower (value candidate)) (lower c0) ->
      get_definition candidate sentence = Raise (ValueError LessKeys)
      /\ (forall st, process_candidate sentence candidate st = Ok (omitted st))
      /\ (forall rest st,
             process_candidates sentence (candidate :: rest) st
             = process_candidates sentence rest (omitted st)))
  /\ best_candidates (U := ascii_tables) (py "(WHO)")
     = Ok [mkCandidate 1 4 (py "WHO")]
  /\ (forall st, process_sentence (U := ascii_tables) (py "(WHO)") st
                 = Ok (omitted st))
  /\ extract_abbreviation_definition_pairs (U := ascii_tables) (Some (py "(WHO)"))
     = Ok ∅.
Proof.
  assert (forall (U : Unicode) (sentence : str) (candidate : Candidate)
                 (c0 : str) (firstchars : list str),
             first_char (value candidate) = Ok c0 ->
             mapM first_char (split (lower (slice_to sentence (start candidate - 2))))
             = Ok firstchars ->
             count (lower c0) firstchars
             < str_count (lower (value candidate)) (lower c0) ->
             get_definition candidate sentence = Raise (ValueError LessKeys))
    as Hraise.
  { intros U sentence candidate c0 firstchars Hc0 Hfc Hlt.
    unfold get_definition. rewrite Hc0. simpl. rewrite Hfc. simpl.
    apply Z.leb_gt in Hlt. by rewrite Hlt. }
  assert (forall (U : Unicode) sentence candidate,
             get_definition candidate sentence = Raise (ValueError LessKeys) ->
             forall st, process_candidate sentence candidate st = Ok (omitted st))
    as Hdrop.
  { intros U sentence candidate Hget st. unfold process_candidate. by rewrite Hget. }
  assert (best_candidates (U := ascii_tables) (py "(WHO)")
          = Ok [mkCandidate 1 4 (py "WHO")]) as Hbest by (vm_compute; reflexivity).
  assert (get_definition (U := ascii_tables) (mkCandidate 1 4 (py "WHO")) (py "(WHO)")
          = Raise (ValueError LessKeys)) as Hwho by (vm_compute; reflexivity).
  split; [|split; [exact Hbest|split]].
  - intros U sentence candidate c0 firstchars Hc0 Hfc Hlt.
    pose proof (Hraise U _ _ _ _ Hc0 Hfc Hlt) as Hget.
    split; [exact Hget|]. split; [by apply Hdrop|].
    intros rest st. simpl. by rewrite (Hdrop U _ _ Hget).
  - intros st. unfold process_sentence. rewrite Hbest.
    cbn [process_candidates]. by rewrite (Hdrop ascii_tables _ _ Hwho).
  - vm_compute. reflexivity.
Qed.

Lemma too_few_keys_candidate_dropped_witness :
  let sentence := py "the Organization (WHO)" in
  let candidate := mkCandidate 18 21 (py "WHO") in
  first_char (value candidate) = Ok (py "W")
  /\ mapM first_char
       (split (U := ascii_tables)
          (lower (Unicode := ascii_tables) (slice_to sentence (start candidate - 2))))
     = Ok [py "t"; py "o"]
  /\ get_definition (U := ascii_tables) candidate sentence
     = Raise (ValueError LessKeys).
Proof.
  intros sentence candidate.
  assert (first_char (value candidate) = Ok (py "W")) as H1
    by (vm_compute; reflexivity).
  assert (mapM first_char
            (split (U := ascii_tables)
               (lower (Unicode := ascii_tables)
                  (slice_to sentence (start candidate - 2))))
          = Ok [py "t"; py "o"]) as H2 by (vm_compute; reflexivity).
  split; [exact H1|]. split; [exact H2|].
  apply (proj1 too_few_keys_candidate_dropped ascii_tables sentence candidate
           (py "W") [py "t"; py "o"] H1 H2).
  vm_compute. reflexivity.
Defined.

(** C6 at the line "(WHO) was here": the candidate "WHO" opens the line, so
    no token stands in front of it, and its key occurs once in it; yet
    [get_definition] does not fail.  The offset of the candidate is 1,
    [candidate.start - 2] is -1, and the slice [sentence[:-1]] is the line
    without its last character: the tokens are taken from the whole line,
    behind the candidate too, and one of them starts with the key.  The
    locator returns the empty span that ends at offset 0; it is the
    validator that drops the candidate, as shorter than the abbreviation. *)
Theorem locator_succeeds_with_no_token_in_front :
  let sentence := py "(WHO) was here" in
  let candidate := mkCandidate 1 4 (py "WHO") in
  best_candidates (U := ascii_tables) sentence = Ok [candidate]
  /\ getitem sentence (start candidate - 1) = Some LPAREN
  /\ split (U := ascii_tables)
       (lower (Unicode := ascii_tables)
          (slice sentence 0 (start candidate - 1))) = []
  /\ str_count (lower (Unicode := ascii_tables) (value candidate))
       (lower (Unicode := ascii_tables) (py "W")) = 1
  /\ split (U := ascii_tables)
       (lower (Unicode := ascii_tables) (slice_to sentence (start candidate - 2)))
     = [py "(who)"; py "was"; py "her"]
  /\ get_definition (U := ascii_tables) candidate sentence
     = Ok (mkCandidate 5 0 [])
  /\ select_definition (U := ascii_tables) (mkCandidate 5 0 []) candidate
     = Raise (ValueError AbbreviationLonger)
  /\ extract_abbreviation_definition_pairs (U := ascii_tables) (Some sentence)
     = Ok ∅.
Proof. repeat split; vm_compute; reflexivity. Qed.

(** C7: when the abbreviation is one of the whitespace-separated words of
    the definition, [select_definition] raises its "full word" error and the
    orchestrator stores nothing for the candidate; "ABC (ABC)" is such a
    line. *)
Theorem full_word_abbreviation_rejected :
  (forall (U : Unicode) (definition abbrev : Candidate),
      value abbrev ∈ split (value definition) ->
      select_definition definition abbrev
      = Raise (ValueError AbbreviationIsFullWord)
      /\ (forall sentence st,
             get_definition abbrev sentence = Ok definition ->
             process_candidate sentence abbrev st = Ok (omitted st)))
  /\ best_candidates (U := ascii_tables) (py "ABC (ABC)")
     = Ok [mkCandidate 5 8 (py "ABC")]
  /\ get_definition (U := ascii_tables) (mkCandidate 5 8 (py "ABC")) (py "ABC (ABC)")
     = Ok (mkCandidate 0 3 (py "ABC"))
  /\ select_definition (U := ascii_tables)
       (mkCandidate 0 3 (py "ABC")) (mkCandidate 5 8 (py "ABC"))
     = Raise (ValueError AbbreviationIsFullWord)
  /\ extract_abbreviation_definition_pairs (U := ascii_tables)
       (Some (py "ABC (ABC)")) = Ok ∅.
Proof.
  split; [|repeat split; vm_compute; reflexivity].
  intros U definition abbrev Hin.
  assert (select_definition definition abbrev
          = Raise (ValueError AbbreviationIsFullWord)) as Hsel.
  { unfold select_definition.
    pose proof (split_length _ _ Hin) as Hlen.
    apply Z.ltb_ge in Hlen. rewrite Hlen.
    apply contains_elem_of in Hin. by rewrite Hin. }
  split; [exact Hsel|].
  intros sentence st Hget. unfold process_candidate. by rewrite Hget, Hsel.
Qed.

Lemma full_word_abbreviation_rejected_witness :
  value (mkCandidate 5 8 (py "ABC"))
    ∈ split (U := ascii_tables) (value (mkCandidate 0 3 (py "ABC")))
  /\ select_definition (U := ascii_tables)
       (mkCandidate 0 3 (py "ABC")) (mkCandidate 5 8 (py "ABC"))
     = Raise (ValueError AbbreviationIsFullWord).
Proof.
  assert (value (mkCandidate 5 8 (py "ABC"))
            ∈ split (U := ascii_tables) (value (mkCandidate 0 3 (py "ABC")))) as Hin.
  { vm_compute. apply list_elem_of_here. }
  split; [exact Hin|].
  apply (proj1 full_word_abbreviation_rejected ascii_tables _ _ Hin).
Defined.

Section LastWriteWins.
Context `{U : Unicode}.

Lemma process_sentence_defined_on sentence st st' :
  process_sentence sentence st = Ok st' ->
  exists m, defined_on sentence = Ok m
            /\ abbrev_map st' = m ∪ abbrev_map st.
Proof.
  intros Hrun.
  destruct (process_sentence_union sentence st st' (mkState ∅ 0 0)
              (abbrev_map st) Hrun) as (st0' & Hrun0 & Hmap).
  { simpl. by rewrite (left_id_L ∅ (∪)). }
  exists (abbrev_map st0'). split; [|done].
  unfold defined_on. by rewrite Hrun0.
Qed.

Lemma process_sentences_untouched sentences st st' (abbrev : str) :
  (forall sentence m,
      sentence ∈ sentences -> defined_on sentence = Ok m -> m !! abbrev = None) ->
  process_sentences sentences st = Ok st' ->
  abbrev_map st' !! abbrev = abbrev_map st !! abbrev.
Proof.
  revert st. induction sentences as [|sentence rest IH]; intros st Hnone; simpl.
  - by intros [= <-].
  - destruct (process_sentence sentence st) as [st1| |] eqn:Hrun; simpl; try done.
    intros Hrest. rewrite (IH st1); [|intros s m Hin; apply Hnone; by right|done].
    destruct (process_sentence_defined_on _ _ _ Hrun) as (m & Hm & ->).
    apply lookup_union_r. eapply Hnone; [by left|done].
Qed.

(** C8: when a document defines an abbreviation on a line and again on a
    later line, and on no line after that one, the dictionary returned for
    the document maps the abbreviation to the definition of the later
    line; being a map, it has no second entry for it. *)
Theorem last_write_wins (doc_text : str) (before middle after : list str)
    (first second : str) (abbrev : str) (d1 d2 : Candidate)
    (m1 m2 : gmap str Candidate) :
  doc_text ≠ [] ->
  yield_lines_from_doc doc_text = before ++ first :: middle ++ second :: after ->
  defined_on first = Ok m1 -> m1 !! abbrev = Some d1 ->
  defined_on second = Ok m2 -> m2 !! abbrev = Some d2 ->
  (forall sentence m,
      sentence ∈ after -> defined_on sentence = Ok m -> m !! abbrev = None) ->
  exists m, extract_abbreviation_definition_pairs (Some doc_text) = Ok m
            /\ m !! abbrev = Some d2.
Proof.
  intros Hne Hlines _ _ Hm2 Hd2 Hafter.
  destruct doc_text as [|c text]; [done|]. simpl. rewrite Hlines.
  replace (before ++ first :: middle ++ second :: after)
    with ((before ++ first :: middle) ++ second :: after)
    by (by rewrite <- app_assoc).
  rewrite (process_sentences_app (before ++ first :: middle) (second :: after)).
  destruct (process_sentences_total (before ++ first :: middle) (mkState ∅ 0 0))
    as [st1 ->].
  cbn [mbind result_bind process_sentences].
  destruct (process_sentence_total second st1) as [st2 Hrun2].
  rewrite Hrun2. cbn [mbind result_bind].
  destruct (process_sentences_total after st2) as [st3 Hrun3].
  rewrite Hrun3. cbn [mbind result_bind]. eexists; split; [done|].
  rewrite (process_sentences_untouched _ _ _ _ Hafter Hrun3).
  destruct (process_sentence_defined_on _ _ _ Hrun2) as (m & Hm & ->).
  rewrite Hm2 in Hm. injection Hm as <-.
  by apply lookup_union_Some_l.
Qed.
End LastWriteWins.

Lemma last_write_wins_witness :
  let first := py "World Health Organization (WHO)" in
  let second := py "World Hockey Outfit (WHO)" in
  let doc_text := first ++ [NEWLINE] ++ second in
  exists m, extract_abbreviation_definition_pairs (U := ascii_tables) (Some doc_text)
            = Ok m
            /\ m !! py "WHO" = Some (mkCandidate 0 19 (py "World Hockey Outfit")).
Proof.
  intros first second doc_text.
  apply (last_write_wins (U := ascii_tables) doc_text [] [] [] first second
           (py "WHO")
           (mkCandidate 0 25 (py "World Health Organization"))
           (mkCandidate 0 19 (py "World Hockey Outfit"))
           {[ py "WHO" := mkCandidate 0 25 (py "World Health Organization") ]}
           {[ py "WHO" := mkCandidate 0 19 (py "World Hockey Outfit") ]}).
  - vm_compute. discriminate.
  - vm_compute. reflexivity.
  - vm_compute. reflexivity.
  - vm_compute. reflexivity.
  - vm_compute. reflexivity.
  - vm_compute. reflexivity.
  - intros sentence m Hin. by apply elem_of_nil in Hin.
Defined.

(** C9, as stated, fails for an abbreviation that starts with a character
    that is not alphanumeric: on the definition "ab x" and the abbreviation
    "-x", both preconditions hold and the loop ends in an [IndexError] at
    [lindex = -3], raised by the read of the abbreviation at [sindex = -3]
    while the first character of the definition is still unread. *)
Lemma alignment_fails_before_definition_is_read :
  let definition := py "ab x" in
  let abbrev := py "-x" in
  (len definition <? len abbrev) = false
  /\ contains abbrev (split (U := ascii_tables) definition) = false
  /\ sd_loop (U := ascii_tables) (S (length definition)) definition abbrev (-1) (-1)
     = Raise IndexError
  /\ sd_last (U := ascii_tables) (S (length definition)) definition abbrev (-1) (-1)
     = (-3, -3)
  /\ getitem abbrev (-3) = None
  /\ ~ sd_outcome_claimed (U := ascii_tables) definition
       (sd_last (U := ascii_tables) (S (length definition)) definition abbrev (-1) (-1))
       (sd_loop (U := ascii_tables) (S (length definition)) definition abbrev (-1) (-1)).
Proof.
  intros definition abbrev.
  assert (sd_loop (U := ascii_tables) (S (length definition)) definition abbrev
            (-1) (-1) = Raise IndexError) as Hloop by (vm_compute; reflexivity).
  assert (sd_last (U := ascii_tables) (S (length definition)) definition abbrev
            (-1) (-1) = (-3, -3)) as Hlast by (vm_compute; reflexivity).
  repeat split; try (vm_compute; reflexivity); try done.
  rewrite Hloop, Hlast. unfold sd_outcome_claimed. simpl. vm_compute.
  intros Hle. by apply Hle.
Qed.

(** C9, amended: for every definition and every abbreviation whose first
    character is alphanumeric once lower-cased, the alignment loop ends
    within [len(definition) + 1] iterations, either through [break] at a word
    boundary or in a failure with the definition read to its first
    character. *)
Theorem alignment_loop_terminates `{U : Unicode} (definition abbrev : str) :
  alnum_head abbrev ->
  sd_outcome_claimed definition
    (sd_last (S (length definition)) definition abbrev (-1) (-1))
    (sd_loop (S (length definition)) definition abbrev (-1) (-1)).
Proof.
  intros Hhead.
  assert (- len abbrev <= -1 <= -1) as Hs.
  { destruct Hhead as (c & r & -> & _). rewrite len_cons.
    pose proof (len_nonneg r). lia. }
  pose proof (len_nonneg definition) as Hlen.
  pose proof (sd_loop_outcome (S (length definition)) definition abbrev (-1) (-1))
    as Hout.
  assert (sd_outcome definition abbrev
            (sd_last (S (length definition)) definition abbrev (-1) (-1))
            (sd_loop (S (length definition)) definition abbrev (-1) (-1))) as Hend.
  { apply Hout; try done; unfold len in *; lia. }
  clear Hout. unfold sd_outcome, sd_outcome_claimed in *.
  destruct (sd_loop _ _ _ _ _) as [lindex|[r|]|]; try done.
  - destruct Hend as [_ ->]. lia.
  - destruct Hend as [->|(_ & _ & Hno)]; [lia|done].
Qed.

Lemma alignment_loop_terminates_witness :
  let definition := py "World Health Organization" in
  let abbrev := py "WHO" in
  alnum_head (U := ascii_tables) abbrev
  /\ sd_outcome_claimed (U := ascii_tables) definition
       (sd_last (U := ascii_tables) (S (length definition)) definition abbrev (-1) (-1))
       (sd_loop (U := ascii_tables) (S (length definition)) definition abbrev (-1) (-1)).
Proof.
  intros definition abbrev.
  assert (alnum_head (U := ascii_tables) abbrev) as Hhead.
  { exists 87%N, (py "HO"). split; vm_compute; reflexivity. }
  split; [exact Hhead|].
  apply (alignment_loop_terminates (U := ascii_tables) definition abbrev Hhead).
Defined.

(** C2: on the line "World Health Organization (WHO)" the candidate finder
    yields the one candidate "WHO", the locator returns "World Health
    Organization", the validator returns it as it is, and the dictionary
    of the document is that one pair. *)
Theorem who_example :
  let sentence := py "World Health Organization (WHO)" in
  let candidate := mkCandidate 27 30 (py "WHO") in
  let definition := mkCandidate 0 25 (py "World Health Organization") in
  best_candidates (U := ascii_tables) sentence = Ok [candidate]
  /\ get_definition (U := ascii_tables) candidate sentence = Ok definition
  /\ select_definition (U := ascii_tables) definition candidate = Ok definition
  /\ extract_abbreviation_definition_pairs (U := ascii_tables) (Some sentence)
     = Ok {[ py "WHO" := definition ]}.
Proof. repeat split; vm_compute; reflexivity. Qed.

(** C1 at the line "axe area (AA)": the candidate and the definition the
    locator returns are the slices of the line at their offsets, but the
    definition the validator returns, and the dictionary stores, has the
    narrowed value "area" under the offsets 0 and 8 of "axe area". *)
Theorem narrowed_definition_keeps_the_wide_offsets :
  let sentence := py "axe area (AA)" in
  let candidate := mkCandidate 10 12 (py "AA") in
  let located := mkCandidate 0 8 (py "axe area") in
  let narrowed := mkCandidate 0 8 (py "area") in
  best_candidates (U := ascii_tables) sentence = Ok [candidate]
  /\ slice sentence (start candidate) (stop candidate) = value candidate
  /\ get_definition (U := ascii_tables) candidate sentence = Ok located
  /\ slice sentence (start located) (stop located) = value located
  /\ select_definition (U := ascii_tables) located candidate = Ok narrowed
  /\ extract_abbreviation_definition_pairs (U := ascii_tables) (Some sentence)
     = Ok {[ py "AA" := narrowed ]}
  /\ slice sentence (start narrowed) (stop narrowed) = py "axe area"
  /\ slice sentence (start narrowed) (stop narrowed) ≠ value narrowed.
Proof. repeat split; try (vm_compute; reflexivity). vm_compute. discriminate. Qed.

(** C3 at a line with a run of four spaces: the tokens in front of the
    candidate are a, b, world, health, organization, the loop chooses the
    token of index 2, which begins at offset 7 of the line, and the span
    returned begins at offset 5, with the token "b". *)
Theorem definition_start_off_after_wide_space :
  let sentence := py "a    b World Health Organization (WHO)" in
  let candidate := mkCandidate 34 37 (py "WHO") in
  let tokens := [py "a"; py "b"; py "world"; py "health"; py "organization"] in
  let firstchars := [py "a"; py "b"; py "w"; py "h"; py "o"] in
  best_candidates (U := ascii_tables) sentence = Ok [candidate]
  /\ split (U := ascii_tables)
       (lower (Unicode := ascii_tables) (slice_to sentence (start candidate - 2)))
     = tokens
  /\ get_definition_loop 7 firstchars (py "w") 1 0 0 4 = Ok 2
  /\ slice sentence 7 12 = py "World"
  /\ get_definition (U := ascii_tables) candidate sentence
     = Ok (mkCandidate 5 32 (py "b World Health Organization")).
Proof. repeat split; vm_compute; reflexivity. Qed.

(** C4 at the abbreviation "A.B": the dot is read at [sindex = -2],
    [sindex] is moved on to -3, and the dot that was read is what the
    iteration compares with the character of the definition.  Against
    "alpha beta" the fifth comparison is the dot with a space; on the line
    "alpha .beta (A.B)" the dot matches the dot of the definition at a word
    boundary and ".beta" is stored for "A.B". *)
Theorem stale_shortchar_is_compared :
  sd_step (U := ascii_tables) (py "alpha beta") (py "A.B") (-2) (-5)
  = Ok (Continue (-3) (-6))
  /\ sd_read (U := ascii_tables) (py "alpha beta") (py "A.B") (-2) (-5)
     = Ok (py ".", py " ")
  /\ sd_compared (U := ascii_tables) 11 (py "alpha beta") (py "A.B") (-1) (-1)
     = [(py "b", py "a"); (py "b", py "t"); (py "b", py "e"); (py "b", py "b");
        (py ".", py " ");
        (py "a", py "a"); (py "a", py "h"); (py "a", py "p"); (py "a", py "l");
        (py "a", py "a")]
  /\ str_isalnum (U := ascii_tables) (py ".") = false
  /\ select_definition (U := ascii_tables)
       (mkCandidate 0 11 (py "alpha .beta")) (mkCandidate 13 16 (py "A.B"))
     = Ok (mkCandidate 0 11 (py ".beta"))
  /\ extract_abbreviation_definition_pairs (U := ascii_tables)
       (Some (py "alpha .beta (A.B)"))
     = Ok {[ py "A.B" := mkCandidate 0 11 (py ".beta") ]}.
Proof. repeat split; vm_compute; reflexivity. Qed.

(** * Further properties of the program *)

(** ** Trimming and slicing *)

Section StripFacts.
Context `{U : Unicode}.

Lemma lstrip_decompose s :
  exists ws, s = ws ++ lstrip s
             /\ Forall (fun c => isspace c = true) ws
             /\ (forall c r, lstrip s = c :: r -> isspace c = false).
Proof.
  induction s as [|c r IH]; simpl.
  - exists []. by repeat split.
  - destruct (isspace c) eqn:Hc.
    + destruct IH as (ws & Heq & Hws & Hhead).
      exists (c :: ws). repeat split; [simpl; congruence|by constructor|done].
    + exists []. repeat split; [done|]. by intros c' r' [= <- <-].
Qed.

Lemma lstrip_spaces_app ws s :
  Forall (fun c => isspace c = true) ws -> lstrip (ws ++ s) = lstrip s.
Proof. induction 1 as [|c ws Hc _ IH]; simpl; [done|by rewrite Hc]. Qed.

Lemma lstrip_fixed c r : isspace c = false -> lstrip (c :: r) = c :: r.
Proof. intros Hc. simpl. by rewrite Hc. Qed.

Lemma lstrip_app_nonspace u v :
  lstrip u ≠ [] -> lstrip (u ++ v) = lstrip u ++ v.
Proof.
  intros Hne. destruct (lstrip_decompose u) as (ws & Heq & Hws & Hhead).
  destruct (lstrip u) as [|c r] eqn:Hl; [done|].
  rewrite Heq at 1. rewrite <- app_assoc, (lstrip_spaces_app _ _ Hws).
  simpl. by rewrite (Hhead c r eq_refl).
Qed.

Lemma lstrip_all_space u v : lstrip u = [] -> lstrip (u ++ v) = lstrip v.
Proof.
  intros Hl. destruct (lstrip_decompose u) as (ws & Heq & Hws & _).
  rewrite Hl, app_nil_r in Heq. subst ws. by apply lstrip_spaces_app.
Qed.

Lemma lstrip_idemp s : lstrip (lstrip s) = lstrip s.
Proof.
  destruct (lstrip_decompose s) as (_ & _ & _ & Hhead).
  destruct (lstrip s) as [|c r]; [done|]. apply lstrip_fixed. by eapply Hhead.
Qed.

Lemma length_lstrip_le s : (length (lstrip s) <= length s)%nat.
Proof.
  destruct (lstrip_decompose s) as (ws & Heq & _).
  remember (lstrip s) as t eqn:Ht. clear Ht. subst s. rewrite length_app. lia.
Qed.

Lemma lstrip_drop s : lstrip s = drop (length s - length (lstrip s)) s.
Proof.
  destruct (lstrip_decompose s) as (ws & Heq & _).
  remember (lstrip s) as t eqn:Ht. clear Ht. subst s. rewrite length_app.
  replace (length ws + length t - length t)%nat with (length ws) by lia.
  by rewrite drop_app_length.
Qed.

Lemma length_rstrip_le s : (length (rstrip s) <= length s)%nat.
Proof.
  unfold rstrip. rewrite length_rev.
  etrans; [apply length_lstrip_le|]. by rewrite length_rev.
Qed.

Lemma rstrip_take s : rstrip s = take (length (rstrip s)) s.
Proof.
  unfold rstrip. rewrite length_rev.
  pose proof (length_lstrip_le (rev s)) as Hle. rewrite length_rev in Hle.
  rewrite (lstrip_drop (rev s)) at 1.
  rewrite List.skipn_rev, rev_involutive, !length_rev. f_equal. lia.
Qed.

Lemma rstrip_nil : rstrip [] = [].
Proof. reflexivity. Qed.

Lemma strip_nil : strip [] = [].
Proof. reflexivity. Qed.

Lemma rstrip_idemp s : rstrip (rstrip s) = rstrip s.
Proof. unfold rstrip. by rewrite rev_involutive, lstrip_idemp. Qed.

(** The right trim of a string whose left trim is not empty leaves the
    leading spaces where they are. *)
Lemma rstrip_lstrip_length s :
  length (rstrip (lstrip s))
  = (length (rstrip s) - (length s - length (lstrip s)))%nat.
Proof.
  destruct (lstrip_decompose s) as (ws & Heq & Hws & Hhead).
  destruct (lstrip s) as [|c r] eqn:Hl.
  - pose proof (length_rstrip_le s). rewrite rstrip_nil. simpl. lia.
  - assert (lstrip (rev (c :: r)) ≠ []) as Hne.
    { simpl. intros Hnil.
      destruct (lstrip_decompose (rev r ++ [c])) as (ws' & Heq' & Hws' & _).
      rewrite Hnil, app_nil_r in Heq'. subst ws'.
      apply Forall_app in Hws' as [_ Hc]. apply Forall_inv in Hc.
      pose proof (Hhead c r eq_refl). simpl in Hc. congruence. }
    assert (rstrip s = ws ++ rstrip (c :: r)) as Hr.
    { rewrite Heq at 1. unfold rstrip. rewrite rev_app_distr.
      rewrite (lstrip_app_nonspace _ _ Hne).
      by rewrite rev_app_distr, rev_involutive. }
    rewrite Hr, Heq at 1. rewrite !length_app. simpl. lia.
Qed.

Lemma strip_idemp s : strip (strip s) = strip s.
Proof.
  unfold strip.
  destruct (lstrip_decompose s) as (_ & _ & _ & Hhead).
  destruct (lstrip s) as [|c r] eqn:Hl; [done|].
  specialize (Hhead c r eq_refl).
  assert (exists r', rstrip (c :: r) = c :: r') as [r' Hr].
  { unfold rstrip. simpl.
    destruct (lstrip_decompose (rev r ++ [c])) as (ws & Heq & Hws & _).
    destruct (lstrip (rev r ++ [c])) as [|x y] eqn:Hx.
    - rewrite app_nil_r in Heq. subst ws.
      apply Forall_app in Hws as [_ Hc]. apply Forall_inv in Hc.
      simpl in Hc. congruence.
    - assert (last (x :: y) = Some c) as Hlast.
      { apply (f_equal last) in Heq. rewrite last_snoc in Heq.
        rewrite last_app in Heq. simpl in Heq.
        destruct (last (x :: y)) eqn:E; [done|].
        apply last_None in E. done. }
      apply last_Some in Hlast as [l' Hl'].
      rewrite Hl'. rewrite rev_app_distr. simpl. by eexists. }
  rewrite Hr. rewrite (lstrip_fixed _ _ Hhead). rewrite <- Hr.
  apply rstrip_idemp.
Qed.
End StripFacts.

Section SliceFacts.
Context {A : Type}.
Implicit Types l : list A.

Lemma slice_nat l (i j : nat) :
  slice l (Z.of_nat i) (Z.of_nat j) = take (j - i) (drop i l).
Proof.
  unfold slice, clamp_index, len.
  replace (Z.of_nat i <? 0) with false by (symmetry; apply Z.ltb_ge; lia).
  replace (Z.of_nat j <? 0) with false by (symmetry; apply Z.ltb_ge; lia).
  destruct (decide (i <= length l)%nat) as [Hi|Hi].
  - rewrite (Z.min_l (Z.of_nat i)) by lia. rewrite Nat2Z.id.
    destruct (decide (j <= length l)%nat) as [Hj|Hj].
    + rewrite Z.min_l by lia.
      by replace (Z.to_nat (Z.of_nat j - Z.of_nat i)) with (j - i)%nat by lia.
    + rewrite Z.min_r by lia.
      rewrite !take_ge; [done|rewrite length_drop; lia..].
  - rewrite (Z.min_r (Z.of_nat i)) by lia. rewrite Nat2Z.id.
    rewrite (drop_ge l i) by lia.
    rewrite drop_ge; [by rewrite !take_nil|lia].
Qed.

Lemma slice_nonneg l a b :
  0 <= a -> 0 <= b ->
  slice l a b = take (Z.to_nat b - Z.to_nat a) (drop (Z.to_nat a) l).
Proof.
  intros Ha Hb. rewrite <- (Z2Nat.id a), <- (Z2Nat.id b) at 1 by done.
  apply slice_nat.
Qed.

Lemma len_slice_nonneg l a b :
  0 <= a <= b -> b <= len l -> len (slice l a b) = b - a.
Proof.
  intros Ha Hb. rewrite slice_nonneg by lia. unfold len in *.
  rewrite length_take, length_drop. lia.
Qed.

Lemma len_slice_bound l a b :
  0 <= a -> 0 <= b -> len (slice l a b) <= Z.max 0 (b - a).
Proof.
  intros Ha Hb. rewrite slice_nonneg by lia. unfold len.
  rewrite length_take. lia.
Qed.

Lemma slice_empty l a b : 0 <= b <= a -> slice l a b = [].
Proof.
  intros Hab. rewrite slice_nonneg by lia.
  replace (Z.to_nat b - Z.to_nat a)%nat with 0%nat by lia. done.
Qed.
End SliceFacts.

Section TrimFacts.
Context `{U : Unicode}.

Lemma strip_take_drop (raw : str) :
  strip raw
  = take (length (rstrip raw) - (length raw - length (lstrip raw)))
         (drop (length raw - length (lstrip raw)) raw).
Proof.
  pose proof (lstrip_drop raw) as Hd.
  pose proof (rstrip_lstrip_length raw) as Hrl.
  unfold strip. revert Hd Hrl. generalize (lstrip raw). intros t Hd Hrl.
  rewrite (rstrip_take t), Hrl. by rewrite <- Hd.
Qed.

(** The offsets that [best_candidates] and [get_definition] compute after
    trimming cut the trimmed string out of the sentence. *)
Lemma trimmed_offsets_slice (sentence : str) (a b : Z) :
  0 <= a -> 0 <= b <= len sentence ->
  slice sentence
    (a + len (slice sentence a b) - len (lstrip (slice sentence a b)))
    (b - len (slice sentence a b) + len (rstrip (slice sentence a b)))
  = strip (slice sentence a b).
Proof.
  intros Ha Hb.
  destruct (decide (b <= a)) as [Hle|Hlt].
  - rewrite (slice_empty sentence a b) by lia.
    change (strip []) with (@nil char). change (rstrip []) with (@nil char).
    change (lstrip []) with (@nil char). rewrite !len_nil.
    apply slice_empty. lia.
  - assert (len (slice sentence a b) = b - a) as Hn
        by (apply len_slice_nonneg; lia).
    rewrite strip_take_drop.
    pose proof (length_lstrip_le (slice sentence a b)) as Hl.
    pose proof (length_rstrip_le (slice sentence a b)) as Hr.
    unfold len in *.
    revert Hl Hr. generalize (length (lstrip (slice sentence a b))).
    generalize (length (rstrip (slice sentence a b))). intros r l Hl Hr.
    revert Hn Hl Hr. generalize (length (slice sentence a b)) at 1 2 3 4 5 6 7.
    intros n Hn Hl Hr.
    rewrite (slice_nonneg sentence a b) by lia.
    rewrite slice_nonneg by lia.
    rewrite List.skipn_firstn_comm, take_take, drop_drop.
    f_equal; [lia|f_equal; lia].
Qed.
End TrimFacts.

Section SliceMore.
Context {A : Type}.
Implicit Types l : list A.

Lemma getitem_nonneg_lookup l i : 0 <= i -> getitem l i = l !! Z.to_nat i.
Proof.
  intros Hi. unfold getitem.
  replace (i <? 0) with false by (symmetry; apply Z.ltb_ge; lia).
  destruct (decide (i < len l)) as [Hlt|Hge].
  - by replace ((0 <=? i) && (i <? len l)) with true
      by (symmetry; apply andb_true_iff; lia).
  - replace ((0 <=? i) && (i <? len l)) with false
      by (symmetry; apply andb_false_iff; right; apply Z.ltb_ge; lia).
    symmetry. apply lookup_ge_None. unfold len in *. lia.
Qed.

Lemma slice_cons l a b x :
  0 <= a < b -> getitem l a = Some x -> slice l a b = x :: slice l (a + 1) b.
Proof.
  intros Hab Hx. rewrite getitem_nonneg_lookup in Hx by lia.
  rewrite !slice_nonneg by lia.
  replace (Z.to_nat (a + 1)) with (S (Z.to_nat a)) by lia.
  rewrite (drop_S _ _ _ Hx).
  replace (Z.to_nat b - Z.to_nat a)%nat with (S (Z.to_nat b - S (Z.to_nat a)))
    by lia.
  done.
Qed.
End SliceMore.

Section CountFacts.
Context {A : Type} `{EqDecision A}.
Implicit Types l : list A.

Lemma count_nil (x : A) : count x [] = 0.
Proof. reflexivity. Qed.

Lemma count_cons (x y : A) l :
  count x (y :: l) = (if decide (y = x) then 1 else 0) + count x l.
Proof.
  unfold count. rewrite filter_cons.
  destruct (decide (y = x)); [rewrite len_cons|]; lia.
Qed.

Lemma count_app (x : A) l1 l2 : count x (l1 ++ l2) = count x l1 + count x l2.
Proof. unfold count. by rewrite filter_app, len_app. Qed.

Lemma count_nonneg (x : A) l : 0 <= count x l.
Proof. apply len_nonneg. Qed.

Lemma count_rev (x : A) l : count x (rev l) = count x l.
Proof.
  induction l as [|y l IH]; [done|]. simpl.
  rewrite count_app, !count_cons, count_nil, IH. lia.
Qed.

Lemma contains_false_count (x : A) l : contains x l = false <-> count x l = 0.
Proof.
  induction l as [|y l IH]; [done|].
  rewrite count_cons. pose proof (count_nonneg x l). simpl.
  rewrite orb_false_iff, IH.
  destruct (decide (y = x)) as [->|Hne].
  - rewrite bool_decide_eq_true_2 by done. split; [by intros [? _]|lia].
  - rewrite bool_decide_eq_false_2 by done. split; [by intros [_ ->]|].
    intros Hc. split; [done|lia].
Qed.
End CountFacts.

Section FinderSpans.
Context `{U : Unicode}.

(** The inner loop stops just after a closing parenthesis, and between the
    place it starts from and that parenthesis the parentheses it counted
    cancel out. *)
Lemma find_close_spec fuel sentence closeindex open closeindex' :
  0 <= closeindex -> 0 < open ->
  find_close fuel sentence closeindex open = Ok (Some closeindex') ->
  closeindex < closeindex' <= len sentence
  /\ getitem sentence (closeindex' - 1) = Some RPAREN
  /\ count LPAREN (slice sentence closeindex (closeindex' - 1)) + open - 1
     = count RPAREN (slice sentence closeindex (closeindex' - 1)).
Proof.
  revert closeindex open.
  induction fuel as [|fuel IH]; intros closeindex open Hc Hopen; simpl.
  - replace (open =? 0) with false by (symmetry; apply Z.eqb_neq; lia). done.
  - replace (open =? 0) with false by (symmetry; apply Z.eqb_neq; lia).
    destruct (getitem sentence closeindex) as [char|] eqn:Hget; [|done].
    pose proof (getitem_Some_range _ _ _ Hget) as Hrange.
    case_bool_decide as Hl; [|case_bool_decide as Hr].
    + intros Hrec. apply IH in Hrec as (Hlt & Hlast & Hcount); [|lia..].
      split; [lia|]. split; [done|].
      rewrite (slice_cons sentence closeindex (closeindex' - 1) char ltac:(lia) Hget),
        !count_cons.
      subst char. rewrite decide_True by done.
      rewrite decide_False by done. lia.
    + destruct (decide (open = 1)) as [->|Hne].
      * destruct fuel; simpl; intros [= <-].
        -- replace (closeindex + 1 - 1) with closeindex by lia.
           rewrite slice_empty by lia. rewrite !count_nil.
           repeat split; try lia. by subst char.
        -- replace (closeindex + 1 - 1) with closeindex by lia.
           rewrite slice_empty by lia. rewrite !count_nil.
           repeat split; try lia. by subst char.
      * intros Hrec. apply IH in Hrec as (Hlt & Hlast & Hcount); [|lia..].
        split; [lia|]. split; [done|].
        rewrite (slice_cons sentence closeindex (closeindex' - 1) char ltac:(lia) Hget),
        !count_cons.
        subst char. rewrite decide_False by done.
        rewrite decide_True by done. lia.
    + intros Hrec. apply IH in Hrec as (Hlt & Hlast & Hcount); [|lia..].
      split; [lia|]. split; [done|].
      rewrite (slice_cons sentence closeindex (closeindex' - 1) char ltac:(lia) Hget),
        !count_cons.
      rewrite !decide_False by done. lia.
Qed.
End FinderSpans.

Section FindMore.
Context {A : Type} `{EqDecision A}.
Implicit Types l : list A.

Lemma find_in_lookup (x : A) l i :
  find_in x l i ≠ -1 -> 0 <= i ->
  l !! Z.to_nat (find_in x l i - i) = Some x.
Proof.
  revert i. induction l as [|y r IH]; intros i; simpl; [done|].
  case_bool_decide as Hy.
  - intros _ _. replace (i - i) with 0 by lia. simpl. by subst.
  - intros Hne Hi. specialize (IH (i + 1) Hne ltac:(lia)).
    destruct (find_in_range x r (i + 1)) as [?|Hr]; [done|].
    replace (Z.to_nat (find_in x r (i + 1) - i))
      with (S (Z.to_nat (find_in x r (i + 1) - (i + 1)))) by lia.
    done.
Qed.

Lemma find_getitem (x : A) l i :
  0 <= i -> find x l i ≠ -1 -> getitem l (find x l i) = Some x.
Proof.
  intros Hi Hne. destruct (find_range x l i Hi) as [?|Hr]; [done|].
  rewrite getitem_nonneg_lookup by lia.
  unfold find in *. pose proof (len_nonneg l) as Hl.
  assert (clamp_index (len l) i = i) as Hc.
  { unfold clamp_index. destruct (i <? 0) eqn:E; lia. }
  rewrite Hc in *.
  pose proof (find_in_lookup x (drop (Z.to_nat i) l) i Hne Hi) as Hlook.
  rewrite lookup_drop in Hlook. rewrite <- Hlook. f_equal. lia.
Qed.
End FindMore.

Section FinderLoop.
Context `{U : Unicode}.
Local Arguments find_close : simpl never.
Local Arguments conditions : simpl never.
Local Arguments find : simpl never.
Local Arguments slice : simpl never.

Lemma best_candidates_loop_spans fuel sentence closeindex candidates :
  -1 <= closeindex ->
  best_candidates_loop fuel sentence closeindex = Ok candidates ->
  Forall (fun candidate =>
            closeindex + 2 <= start candidate
            /\ well_cut sentence candidate
            /\ enclosed_in sentence candidate
            /\ conditions (value candidate) = Ok true) candidates
  /\ StronglySorted (fun a b => stop a < start b) candidates.
Proof.
  revert closeindex candidates.
  induction fuel as [|fuel IH]; intros closeindex candidates Hc; simpl; [done|].
  destruct (find_range LPAREN sentence (closeindex + 1)) as [Hm|Hopen]; [lia| |].
  { rewrite Hm. simpl. intros [= <-]. split; constructor. }
  destruct (_ =? -1) eqn:Hm; [intros [= <-]; split; constructor|].
  apply Z.eqb_neq in Hm.
  pose proof (find_getitem LPAREN sentence (closeindex + 1) ltac:(lia) Hm) as Hparen.
  set (openindex := find LPAREN sentence (closeindex + 1)) in *.
  destruct (find_close _ _ _ _) as [[closeindex'|]| |] eqn:Hclose; simpl; try done.
  - apply find_close_spec in Hclose as (Hlt & Hlast & Hcount); [|lia..].
    set (raw := slice sentence (openindex + 1) (closeindex' - 1)) in *.
    assert (len raw = closeindex' - 1 - (openindex + 1)) as Hraw
        by (apply len_slice_nonneg; lia).
    pose proof (trimmed_offsets_slice sentence (openindex + 1) (closeindex' - 1)
                  ltac:(lia) ltac:(lia)) as Htrim.
    fold raw in Htrim.
    pose proof (length_lstrip_le raw) as Hl.
    pose proof (length_rstrip_le raw) as Hr.
    set (start1 := openindex + 1 + len raw - len (lstrip raw)) in *.
    set (stop1 := closeindex' - 1 - len raw + len (rstrip raw)) in *.
    destruct (conditions (slice sentence start1 stop1)) as [good| |] eqn:Hgood;
      simpl; try done.
    destruct (best_candidates_loop fuel sentence closeindex')
      as [rest| |] eqn:Hrest; simpl; try done.
    intros [= <-]. apply IH in Hrest as [Hall Hsorted]; [|lia].
    assert (Forall (fun candidate =>
                      closeindex + 2 <= start candidate
                      /\ well_cut sentence candidate
                      /\ enclosed_in sentence candidate
                      /\ conditions (value candidate) = Ok true) rest) as Hall'.
    { eapply Forall_impl; [exact Hall|]. simpl. intros c (? & ?).
      split; [lia|done]. }
    destruct good; [|done].
    assert (openindex + 1 <= start1 /\ stop1 <= closeindex' - 1
            /\ openindex + 1 <= stop1) as (Hs1 & Hs2 & Hs3).
    { unfold start1, stop1, len in *. lia. }
    assert (start1 < stop1) as Hne.
    { destruct (decide (start1 < stop1)) as [|Hge]; [done|].
      apply conditions_true_nonempty in Hgood.
      rewrite slice_empty in Hgood by lia. done. }
    split.
    + constructor; [|done]. simpl. split; [lia|].
      split; [|split; [|done]].
      * unfold well_cut. simpl. repeat split; try lia.
        rewrite Htrim. apply strip_idemp.
      * exists openindex, (closeindex' - 1). simpl.
        repeat split; try done; try lia. fold raw. lia.
    + constructor; [done|].
      eapply Forall_impl; [exact Hall|]. simpl. intros c (? & _). lia.
  - intros Hrest. apply IH in Hrest as [Hall Hsorted]; [|lia].
    split; [|done]. eapply Forall_impl; [exact Hall|]. simpl.
    intros c (? & ?). split; [lia|done].
Qed.
End FinderLoop.

Section FinderTheorems.
Context `{U : Unicode}.

Lemma best_candidates_spans sentence candidates :
  best_candidates sentence = Ok candidates ->
  Forall (fun candidate =>
            well_cut sentence candidate
            /\ enclosed_in sentence candidate
            /\ conditions (value candidate) = Ok true) candidates
  /\ StronglySorted (fun a b => stop a < start b) candidates.
Proof.
  unfold best_candidates.
  destruct (contains _ _); [|intros [= <-]; split; constructor].
  destruct (negb _); [done|]. destruct (_ >? _); [done|].
  intros Hloop. apply best_candidates_loop_spans in Hloop as [Hall Hsorted]; [|lia].
  split; [|done]. eapply Forall_impl; [exact Hall|]. by intros c (_ & ?).
Qed.

(** X1: Every candidate that [best_candidates] yields is a non-empty slice of
    the sentence at its own offsets, lies strictly inside the sentence
    behind its first character, and has no white space at either end. *)
Theorem candidates_are_trimmed_spans sentence candidates :
  best_candidates sentence = Ok candidates ->
  Forall (well_cut sentence) candidates.
Proof.
  intros [Hall _]%best_candidates_spans.
  eapply Forall_impl; [exact Hall|]. by intros c (? & _).
Qed.

(** X2: Every candidate that [best_candidates] yields is the trimmed text
    between an opening parenthesis of the sentence and a closing one after
    it, with as many opening as closing parentheses in between. *)
Theorem candidates_are_parenthesised sentence candidates :
  best_candidates sentence = Ok candidates ->
  Forall (enclosed_in sentence) candidates.
Proof.
  intros [Hall _]%best_candidates_spans.
  eapply Forall_impl; [exact Hall|]. by intros c (_ & ? & _).
Qed.

(** X3: The candidates come in the order of the sentence and their spans do
    not overlap: each one ends before the next one starts. *)
Theorem candidates_left_to_right sentence candidates :
  best_candidates sentence = Ok candidates ->
  StronglySorted (fun a b => stop a < start b) candidates.
Proof. by intros [_ Hsorted]%best_candidates_spans. Qed.

Lemma re_group_shorter s t :
  t ∈ re_group s ->
  exists c r, s = c :: r /\ is_letter c = true /\ (length t <= length r)%nat.
Proof.
  destruct s as [|c r]; simpl; [by intros ?%elem_of_nil|].
  destruct (is_letter c) eqn:Hc; [|by intros ?%elem_of_nil].
  intros Hin. exists c, r. repeat split; try done.
  apply list_elem_of_In, in_flat_map in Hin as (t0 & Hin0 & Hin).
  assert (length t0 <= length r)%nat as Hle0.
  { apply in_app_or in Hin0 as [Hin0|Hin0].
    - destruct r as [|d r']; [done|]. case_bool_decide; [|done].
      destruct Hin0 as [<-|[]]. simpl. lia.
    - destruct Hin0 as [<-|[]]. done. }
  destruct t0 as [|w t']; [destruct Hin as [<-|[]]; done|].
  destruct (re_space w); simpl in Hin.
  - destruct Hin as [<-|[<-|[]]]; simpl in *; lia.
  - destruct Hin as [<-|[]]; done.
Qed.

Lemma conditions_accepts (candidate : str) :
  conditions candidate = Ok true ->
  2 <= len candidate /\ exists c, c ∈ candidate /\ is_letter c = true.
Proof.
  unfold conditions.
  destruct (re_match_abbrev (lstrip candidate)) eqn:Hre.
  - intros _. unfold re_match_abbrev in Hre.
    apply existsb_exists in Hre as (t & Hin & Ht).
    apply list_elem_of_In, re_group_shorter in Hin as (c & r & Hs & Hc & Hlen).
    assert (t ≠ []) as Hne by (intros ->; done).
    destruct (lstrip_decompose candidate) as (ws & Heq & _).
    rewrite Hs in Heq. split.
    + rewrite Heq. unfold len. rewrite length_app. simpl.
      destruct t; [done|]. simpl in Hlen. lia.
    + exists c. split; [|done]. rewrite Heq. apply elem_of_app. right. by left.
  - destruct (_ || _) eqn:Hlen; [done|].
    destruct (_ >? 2); [done|].
    destruct (negb (existsb is_letter candidate)) eqn:Hletter; [done|].
    intros _. apply orb_false_iff in Hlen as [Hlen _]. split; [lia|].
    apply negb_false_iff, existsb_exists in Hletter as (c & Hin & Hc).
    exists c. split; [by apply list_elem_of_In|done].
Qed.

(** X6: What [conditions] accepts has at least two characters and contains a
    letter, by whichever of its two rules it is accepted. *)
Theorem accepted_candidate_has_two_characters_and_a_letter (candidate : str) :
  conditions candidate = Ok true ->
  2 <= len candidate /\ exists c, c ∈ candidate /\ is_letter c = true.
Proof. apply conditions_accepts. Qed.
End FinderTheorems.

Section FirstOccurrence.
Context {A : Type} `{EqDecision A}.
Implicit Types l : list A.

Lemma find_in_none_count (x : A) l i :
  0 <= i -> find_in x l i = -1 -> count x l = 0.
Proof.
  revert i. induction l as [|y r IH]; intros i Hi; simpl; [done|].
  rewrite count_cons. case_bool_decide as Hy; [lia|].
  intros Hnone. rewrite decide_False by done. rewrite (IH (i + 1)); [done|lia|done].
Qed.

Lemma find_in_count_drop (x : A) l i :
  0 <= i -> find_in x l i ≠ -1 ->
  count x (drop (Z.to_nat (find_in x l i - i)) l) = count x l.
Proof.
  revert i. induction l as [|y r IH]; intros i Hi; simpl; [done|].
  case_bool_decide as Hy.
  - intros _. by replace (Z.to_nat (i - i)) with 0%nat by lia.
  - intros Hne. destruct (find_in_range x r (i + 1)) as [?|Hr]; [done|].
    replace (Z.to_nat (find_in x r (i + 1) - i))
      with (S (Z.to_nat (find_in x r (i + 1) - (i + 1)))) by lia.
    simpl. rewrite (IH (i + 1)) by (done || lia).
    rewrite count_cons, decide_False by done. lia.
Qed.

Lemma slice_from_drop l j :
  0 <= j -> slice_from l j = drop (Z.to_nat j) l.
Proof.
  intros Hj. unfold slice_from. pose proof (len_nonneg l).
  rewrite slice_nonneg by lia. apply take_ge.
  rewrite length_drop. unfold len. lia.
Qed.

Lemma find_0 (x : A) l : find x l 0 = find_in x l 0.
Proof.
  unfold find, clamp_index. pose proof (len_nonneg l).
  replace (0 <? 0) with false by done.
  rewrite Z.min_l by lia. done.
Qed.

(** Searching from the start finds the first occurrence, behind which all
    occurrences lie. *)
Lemma index_0_count (x : A) l :
  0 < count x l ->
  exists i, index x l 0 = Some i /\ count x (slice_from l i) = count x l.
Proof.
  intros Hpos. unfold index. rewrite find_0.
  destruct (decide (find_in x l 0 = -1)) as [Hnone|Hsome].
  - apply find_in_none_count in Hnone; lia.
  - destruct (find_in_range x l 0) as [?|Hr]; [done|].
    replace (find_in x l 0 =? -1) with false by (symmetry; apply Z.eqb_neq; lia).
    eexists; split; [done|].
    rewrite slice_from_drop by lia.
    pose proof (find_in_count_drop x l 0 ltac:(lia) Hsome) as Hc.
    by rewrite Z.sub_0_r in Hc.
Qed.
End FirstOccurrence.

Section LocatorTheorems.
Context `{U : Unicode}.
Local Arguments slice : simpl never.
Local Arguments index : simpl never.
Local Arguments count : simpl never.
Local Arguments slice_from : simpl never.

Lemma get_definition_loop_never_gives_up fuel firstchars key candidate_freq
    count0 start0 startindex r :
  candidate_freq <= count key firstchars ->
  - len firstchars <= start0 <= 0 ->
  0 <= count0 ->
  (start0 = - len firstchars -> candidate_freq <= count0) ->
  get_definition_loop fuel firstchars key candidate_freq count0 start0 startindex
  ≠ Raise (ValueError r).
Proof.
  intros Hfreq. revert count0 start0 startindex.
  induction fuel as [|fuel IH]; intros count0 start0 startindex Hs Hc Hfull; simpl.
  - by destruct (count0 <? candidate_freq).
  - destruct (count0 <? candidate_freq) eqn:Hlt; [|done].
    apply Z.ltb_lt in Hlt.
    assert (start0 ≠ - len firstchars) as Hne by (intros Heq; apply Hfull in Heq; lia).
    replace (Z.abs start0 >? len firstchars) with false
      by (symmetry; rewrite Z.gtb_ltb; apply Z.ltb_ge; lia).
    apply IH; [lia|apply count_nonneg|].
    intros Hstart.
    replace (len firstchars + (start0 - 1)) with 0 by lia.
    assert (0 < count key firstchars) as Hpos by lia.
    destruct (index_0_count key firstchars Hpos) as (i & -> & ->). done.
Qed.

(** X7: [get_definition] gives up for one reason only, the candidate having
    more key characters than there are key-initial tokens: its second
    [ValueError], "candiate not found", is never raised, and [IndexError]
    is raised for the empty candidate alone. *)
Theorem get_definition_failures (candidate : Candidate) (sentence : str) :
  match get_definition candidate sentence with
  | Ok definition =>
      value definition = slice sentence (start definition) (stop definition)
  | Raise (ValueError r) => r = LessKeys
  | Raise IndexError => value candidate = []
  | OutOfFuel => False
  end.
Proof.
  unfold get_definition.
  destruct (value candidate) as [|c0 rest] eqn:Hv; [done|].
  rewrite first_char_cons. simpl.
  destruct (mapM_first_char
              (split (lower (slice_to sentence (start candidate - 2)))))
    as (firstchars & -> & Hlen); [apply split_nonempty|].
  simpl. destruct (_ <=? _) eqn:Hle; [|done].
  apply Z.leb_le in Hle.
  pose proof (get_definition_loop_total (length firstchars + 2) firstchars
                (lower [c0]) (str_count (lower (c0 :: rest)) (lower [c0]))
                0 0 (len firstchars - 1)) as Htotal.
  pose proof (get_definition_loop_never_gives_up (length firstchars + 2) firstchars
                (lower [c0]) (str_count (lower (c0 :: rest)) (lower [c0]))
                0 0 (len firstchars - 1)) as Hnever.
  pose proof (len_nonneg firstchars) as Hnn.
  destruct Htotal as [[i Hi]|Hraise]; [lia|lia|unfold len; lia| |].
  - rewrite Hi. simpl. done.
  - exfalso. eapply Hnever; [exact Hle|lia|lia| |exact Hraise].
    intros Hzero. assert (len firstchars = 0) as Hz by lia.
    destruct firstchars; [|rewrite len_cons in Hz; pose proof (len_nonneg firstchars); lia].
    by rewrite count_nil in Hle.
Qed.
End LocatorTheorems.

Section LocatorSpan.
Context `{U : Unicode}.
Local Arguments slice : simpl never.
Local Arguments index : simpl never.
Local Arguments count : simpl never.
Local Arguments slice_to : simpl never.

Lemma get_definition_span
    (candidate : Candidate) (sentence : str) (definition : Candidate) :
  1 <= start candidate <= len sentence + 1 ->
  get_definition candidate sentence = Ok definition ->
  0 <= start definition
  /\ 0 <= stop definition <= start candidate - 1
  /\ value definition = slice sentence (start definition) (stop definition)
  /\ strip (value definition) = value definition.
Proof.
  intros Hstart. unfold get_definition.
  destruct (first_char (value candidate)) as [c0| |]; simpl; try done.
  destruct (mapM first_char _) as [firstchars| |]; simpl; try done.
  destruct (_ <=? _); [|done].
  destruct (get_definition_loop _ _ _ _ _ _ _) as [startindex| |]; simpl; try done.
  set (tokens := split (lower (slice_to sentence (start candidate - 2)))).
  set (start0 := len (join [SPACE] (slice_to tokens startindex))).
  set (raw := slice sentence start0 (start candidate - 1)).
  intros [= <-]. simpl.
  pose proof (len_nonneg (join [SPACE] (slice_to tokens startindex))) as Hs0.
  fold start0 in Hs0.
  pose proof (length_lstrip_le raw) as Hl.
  pose proof (length_rstrip_le raw) as Hr.
  pose proof (trimmed_offsets_slice sentence start0 (start candidate - 1)
                Hs0 ltac:(lia)) as Htrim.
  fold raw in Htrim.
  pose proof (len_slice_bound sentence start0 (start candidate - 1)
                Hs0 ltac:(lia)) as Hbound.
  fold raw in Hbound. unfold len in *.
  repeat split; try lia.
  rewrite Htrim. apply strip_idemp.
Qed.

(** X8: For a candidate whose offset lies in the sentence, the definition that
    [get_definition] returns is the slice of the sentence at its offsets,
    has no white space at either end, and ends at or in front of the
    character that stands just before the candidate: its [stop] is at most
    [candidate.start - 1].  That character is the opening parenthesis when
    the candidate follows it directly; behind white space, as in "( WHO )",
    it is not, and the span may hold the parenthesis. *)
Theorem located_definition_precedes_candidate
    (candidate : Candidate) (sentence : str) (definition : Candidate) :
  1 <= start candidate <= len sentence + 1 ->
  get_definition candidate sentence = Ok definition ->
  0 <= start definition
  /\ 0 <= stop definition <= start candidate - 1
  /\ value definition = slice sentence (start definition) (stop definition)
  /\ strip (value definition) = value definition.
Proof. apply get_definition_span. Qed.
End LocatorSpan.

Section NegativeIndex.
Context {A : Type}.
Implicit Types l : list A.

Lemma getitem_neg_lookup l i :
  - len l <= i < 0 -> getitem l i = l !! Z.to_nat (len l + i).
Proof.
  intros Hi. unfold getitem.
  replace (i <? 0) with true by (symmetry; apply Z.ltb_lt; lia).
  replace ((0 <=? i + len l) && (i + len l <? len l)) with true
    by (symmetry; apply andb_true_iff; lia).
  f_equal. lia.
Qed.

Lemma slice_neg_suffix l i :
  - len l <= i < 0 -> slice l i (len l) = drop (Z.to_nat (len l + i)) l.
Proof.
  intros Hi. unfold slice, clamp_index.
  replace (i <? 0) with true by (symmetry; apply Z.ltb_lt; lia).
  replace (len l <? 0) with false by (symmetry; apply Z.ltb_ge; lia).
  rewrite Z.max_r by lia. rewrite Z.min_l by lia.
  replace (i + len l) with (len l + i) by lia.
  apply take_ge. rewrite length_drop. unfold len in *. lia.
Qed.
End NegativeIndex.

Section ValidatorTheorems.
Context `{U : Unicode}.
Local Arguments slice : simpl never.
Local Arguments count : simpl never.

Lemma select_definition_post (definition abbrev definition' : Candidate) :
  select_definition definition abbrev = Ok definition' ->
  (exists front,
      value definition = front ++ value definition'
      /\ value definition' ≠ []
      /\ (front = [] \/ exists c, last front = Some c /\ isalnum c = false))
  /\ len (split (value definition'))
     <= Z.min (len (value abbrev) + 5) (len (value abbrev) * 2)
  /\ count LPAREN (value definition') = count RPAREN (value definition')
  /\ len (value abbrev) <= len (value definition)
  /\ value abbrev ∉ split (value definition).
Proof.
  unfold select_definition.
  destruct (_ <? _) eqn:Hlen; [done|]. apply Z.ltb_ge in Hlen.
  destruct (contains _ _) eqn:Hword; [done|].
  assert (alnum_head (value abbrev) -> - len (value abbrev) <= -1 <= -1) as Hs.
  { intros (c & r & -> & _). rewrite len_cons. pose proof (len_nonneg r). lia. }
  pose proof (len_nonneg (value definition)) as Hnn.
  pose proof (sd_loop_outcome (S (length (value definition))) (value definition)
                (value abbrev) (-1) (-1)) as Hout.
  destruct (sd_loop _ _ _ _ _) as [lindex| |]; simpl; try done.
  destruct (_ >? _) eqn:Hwords; [done|].
  destruct (negb _) eqn:Hbal; [done|].
  intros [= <-]. simpl.
  destruct Hout as (_ & Hrange & Hboundary);
    [unfold len in *; lia|done|lia|lia|unfold len in *; lia|].
  rewrite slice_neg_suffix by lia.
  set (n := Z.to_nat (len (value definition) + lindex)).
  assert (n < length (value definition))%nat as Hn by (unfold n, len in *; lia).
  repeat split.
  - exists (take n (value definition)). split; [by rewrite take_drop|]. split.
    + intros Hnil. apply (f_equal length) in Hnil.
      rewrite length_drop in Hnil. simpl in Hnil. lia.
    + destruct Hboundary as [Hfront|(c & Hc & Halnum)].
      * left. replace n with 0%nat by (unfold n; lia). done.
      * destruct (decide (lindex = - len (value definition))) as [Heq|Hne].
        { left. replace n with 0%nat by (unfold n; lia). done. }
        right. exists c. split; [|done].
        rewrite getitem_neg_lookup in Hc by lia.
        rewrite last_lookup, length_take, lookup_take_lt by lia.
        rewrite <- Hc. f_equal. unfold n. lia.
  - rewrite slice_neg_suffix in Hwords by lia. fold n in Hwords. lia.
  - rewrite slice_neg_suffix in Hbal by lia. fold n in Hbal.
    apply negb_false_iff, Z.eqb_eq in Hbal. done.
  - done.
  - intros Hin. apply contains_elem_of in Hin. congruence.
Qed.

(** X9: What a definition returned by [select_definition] is: a non-empty end
    piece of the definition it was given, starting at the front of that
    definition or behind a character that is not alphanumeric, of at most
    [min(|A| + 5, 2|A|)] words, with balanced parentheses; and the
    abbreviation is not longer than the definition given, nor one of its
    words. *)
Theorem select_definition_postconditions (definition abbrev definition' : Candidate) :
  select_definition definition abbrev = Ok definition' ->
  (exists front,
      value definition = front ++ value definition'
      /\ value definition' ≠ []
      /\ (front = [] \/ exists c, last front = Some c /\ isalnum c = false))
  /\ len (split (value definition'))
     <= Z.min (len (value abbrev) + 5) (len (value abbrev) * 2)
  /\ count LPAREN (value definition') = count RPAREN (value definition')
  /\ len (value abbrev) <= len (value definition)
  /\ value abbrev ∉ split (value definition).
Proof. apply select_definition_post. Qed.
End ValidatorTheorems.

Section Subsequence.
Context `{U : Unicode}.
Local Arguments slice : simpl never.
Local Arguments count : simpl never.

Lemma sd_loop_alignment fuel definition abbrev sindex lindex lindex' :
  Forall (fun c => str_isalnum (lower [c]) = true) abbrev ->
  - len abbrev <= sindex <= -1 ->
  - len definition - 1 <= lindex <= -1 ->
  map lower1 (drop (Z.to_nat (len abbrev + sindex + 1)) abbrev)
    `sublist_of`
    map lower1 (drop (Z.to_nat (len definition + lindex + 1)) definition) ->
  sd_loop fuel definition abbrev sindex lindex = Ok lindex' ->
  - len definition <= lindex' <= -1
  /\ exists ca ra cd rd,
      abbrev = ca :: ra
      /\ drop (Z.to_nat (len definition + lindex')) definition = cd :: rd
      /\ lower [ca] = lower [cd]
      /\ map lower1 ra `sublist_of` map lower1 rd.
Proof.
  intros Halnum. revert sindex lindex.
  induction fuel as [|fuel IH]; intros sindex lindex Hs Hl Hinv; simpl; [done|].
  unfold sd_step, sd_read.
  destruct (getitem definition lindex) as [lc|] eqn:Hlc; simpl; [|done].
  pose proof (getitem_Some_range _ _ _ Hlc) as Hlr.
  destruct (getitem abbrev sindex) as [sc|] eqn:Hsc; simpl; [|done].
  rewrite getitem_neg_lookup in Hlc, Hsc by lia.
  assert (str_isalnum (lower [sc]) = true) as Hal.
  { rewrite Forall_forall in Halnum. apply Halnum.
    by eapply list_elem_of_lookup_2. }
  rewrite Hal. simpl.
  pose proof (drop_S _ _ _ Hlc) as Hdl.
  pose proof (drop_S _ _ _ Hsc) as Hds.
  replace (S (Z.to_nat (len definition + lindex)))
    with (Z.to_nat (len definition + lindex + 1)) in Hdl by lia.
  replace (S (Z.to_nat (len abbrev + sindex)))
    with (Z.to_nat (len abbrev + sindex + 1)) in Hds by lia.
  assert (forall sindex',
             sindex' = sindex ->
             sd_loop fuel definition abbrev sindex' (lindex - 1) = Ok lindex' ->
             - len definition <= lindex' <= -1
             /\ exists ca ra cd rd,
                 abbrev = ca :: ra
                 /\ drop (Z.to_nat (len definition + lindex')) definition = cd :: rd
                 /\ lower [ca] = lower [cd]
                 /\ map lower1 ra `sublist_of` map lower1 rd) as Hskip.
  { intros ? -> Hrec. apply IH in Hrec; [done|lia|lia|].
    replace (len definition + (lindex - 1) + 1) with (len definition + lindex)
      by lia.
    rewrite Hdl. simpl. by apply sublist_cons. }
  destruct (sindex =? -1 * len abbrev) eqn:Hend.
  - apply Z.eqb_eq in Hend.
    case_bool_decide as Hmatch.
    + assert (lindex' = lindex ->
              - len definition <= lindex' <= -1
              /\ exists ca ra cd rd,
                  abbrev = ca :: ra
                  /\ drop (Z.to_nat (len definition + lindex')) definition
                     = cd :: rd
                  /\ lower [ca] = lower [cd]
                  /\ map lower1 ra `sublist_of` map lower1 rd) as Hbreak.
      { intros ->. split; [lia|].
        replace (Z.to_nat (len abbrev + sindex)) with 0%nat in * by lia.
        replace (Z.to_nat (len abbrev + sindex + 1)) with 1%nat in * by lia.
        destruct abbrev as [|ca ra]; [done|]. simpl in Hsc, Hds, Hinv.
        injection Hsc as ->.
        exists sc, ra, lc,
          (drop (Z.to_nat (len definition + lindex + 1)) definition).
        repeat split; done. }
      destruct (lindex =? -1 * len definition); [by intros [= <-]; apply Hbreak|].
      destruct (getitem definition (lindex - 1)) as [c|]; [|done].
      destruct (negb (isalnum c)); simpl; [by intros [= <-]; apply Hbreak|].
      by apply Hskip.
    + destruct (_ =? -1 * (len definition + 1)); [done|]. simpl.
      by apply Hskip.
  - apply Z.eqb_neq in Hend.
    case_bool_decide as Hmatch; simpl; [|by apply Hskip].
    intros Hrec. apply IH in Hrec; [done|lia|lia|].
    replace (len definition + (lindex - 1) + 1) with (len definition + lindex)
      by lia.
    replace (len abbrev + (sindex - 1) + 1) with (len abbrev + sindex) by lia.
    rewrite Hdl, Hds. simpl. unfold lower1 at 1 3. rewrite Hmatch.
    by apply sublist_skip.
Qed.

(** X10: For an abbreviation all of whose characters are alphanumeric once
    lower-cased, a definition that [select_definition] returns starts with
    the first character of the abbreviation, and the remaining characters
    of the abbreviation occur in it in their order, all compared in lower
    case. *)
Theorem validated_abbreviation_is_a_subsequence
    (definition abbrev definition' : Candidate) :
  Forall (fun c => str_isalnum (lower [c]) = true) (value abbrev) ->
  select_definition definition abbrev = Ok definition' ->
  exists ca ra cd rd,
    value abbrev = ca :: ra
    /\ value definition' = cd :: rd
    /\ lower [ca] = lower [cd]
    /\ map lower1 ra `sublist_of` map lower1 rd.
Proof.
  intros Halnum. unfold select_definition.
  destruct (_ <? _); [done|]. destruct (contains _ _); [done|].
  destruct (sd_loop _ _ _ _ _) as [lindex| |] eqn:Hloop; simpl; try done.
  destruct (_ >? _); [done|]. destruct (negb _); [done|].
  intros [= <-]. simpl.
  destruct (value abbrev) as [|ca ra] eqn:Ha.
  { exfalso. simpl in Hloop. unfold sd_step, sd_read in Hloop.
    destruct (getitem (value definition) (-1)); simpl in Hloop; done. }
  pose proof (len_nonneg (value definition)) as Hnn.
  pose proof (len_nonneg ra) as Hra.
  apply sd_loop_alignment in Hloop as (Hrange & ca' & ra' & cd & rd & Heq & Hd & Hc & Hsub);
    [|done|rewrite len_cons; lia|lia|].
  - injection Heq as <- <-. exists ca, ra, cd, rd.
    rewrite slice_neg_suffix by lia. done.
  - replace (Z.to_nat (len (ca :: ra) + -1 + 1)) with (length (ca :: ra))
      by (unfold len; lia).
    rewrite drop_all. apply sublist_nil_l.
Qed.
End Subsequence.

Section LinesFacts.
Context `{U : Unicode}.

Lemma split_on_nonempty sep s : split_on sep s ≠ [].
Proof.
  destruct s as [|c r]; simpl; [done|].
  case_bool_decide; [done|]. by destruct (split_on sep r).
Qed.

Lemma split_on_app sep s1 s2 :
  split_on sep (s1 ++ sep :: s2) = split_on sep s1 ++ split_on sep s2.
Proof.
  induction s1 as [|c r IH]; simpl.
  - by rewrite bool_decide_eq_true_2.
  - case_bool_decide; [by rewrite IH|].
    rewrite IH. pose proof (split_on_nonempty sep r).
    by destruct (split_on sep r).
Qed.

Lemma length_split_on sep s : len (split_on sep s) = count sep s + 1.
Proof.
  induction s as [|c r IH]; [done|]. simpl. rewrite count_cons.
  case_bool_decide as Hc.
  - rewrite len_cons, IH, decide_True by done. lia.
  - rewrite decide_False by done.
    pose proof (split_on_nonempty sep r).
    destruct (split_on sep r); [done|]. rewrite len_cons in *. lia.
Qed.

Lemma split_on_pieces sep s piece c :
  piece ∈ split_on sep s -> c ∈ piece -> c ∈ s /\ c ≠ sep.
Proof.
  revert piece. induction s as [|x r IH]; intros piece; simpl.
  - intros ->%list_elem_of_singleton. by intros ?%elem_of_nil.
  - case_bool_decide as Hx.
    + intros [->|Hin]%elem_of_cons Hc; [by apply elem_of_nil in Hc|].
      destruct (IH _ Hin Hc). split; [by right|done].
    + pose proof (split_on_nonempty sep r).
      destruct (split_on sep r) as [|h t] eqn:Hs; [done|].
      intros [->|Hin]%elem_of_cons Hc.
      * apply elem_of_cons in Hc as [->|Hc]; [split; [by left|done]|].
        destruct (IH h ltac:(by left) Hc). split; [by right|done].
      * destruct (IH piece ltac:(by right) Hc). split; [by right|done].
Qed.

Lemma strip_sublist s : strip s `sublist_of` s.
Proof.
  rewrite strip_take_drop.
  etrans; [apply sublist_take|apply sublist_drop].
Qed.

(** X18: [yield_lines_from_doc] yields one line more than the text has newline
    characters; each line is trimmed and holds no newline. *)
Theorem lines_of_a_document (doc_text : str) :
  len (yield_lines_from_doc doc_text) = count NEWLINE doc_text + 1
  /\ Forall (fun line => strip line = line /\ NEWLINE ∉ line)
            (yield_lines_from_doc doc_text).
Proof.
  unfold yield_lines_from_doc. split.
  - unfold len. rewrite length_map. apply length_split_on.
  - apply Forall_forall. intros line Hin.
    apply list_elem_of_In, in_map_iff in Hin as (piece & <- & Hin).
    apply list_elem_of_In in Hin.
    split; [apply strip_idemp|].
    intros Hnl. eapply elem_of_sublist in Hnl; [|apply strip_sublist].
    by destruct (split_on_pieces _ _ _ _ Hin Hnl).
Qed.
End LinesFacts.

Section OrchestratorTheorems.
Context `{U : Unicode}.

Lemma extract_by_lines (doc_text : str) :
  extract_abbreviation_definition_pairs (Some doc_text)
  = (st ← process_sentences (yield_lines_from_doc doc_text) (mkState ∅ 0 0);
     Ok (abbrev_map st)).
Proof. by destruct doc_text. Qed.

Lemma process_sentences_union sentences st st' st0 base :
  process_sentences sentences st = Ok st' ->
  abbrev_map st = abbrev_map st0 ∪ base ->
  exists st0', process_sentences sentences st0 = Ok st0'
               /\ abbrev_map st' = abbrev_map st0' ∪ base.
Proof.
  revert st st0. induction sentences as [|sentence rest IH]; intros st st0; simpl.
  - intros [= <-] Hu. by exists st0.
  - destruct (process_sentence sentence st) as [st1| |] eqn:Hrun; simpl; try done.
    intros Hrest Hu.
    destruct (process_sentence_union _ _ _ _ _ Hrun Hu) as (st1' & -> & Hu1).
    simpl. by eapply IH.
Qed.

(** X15: The dictionary of two texts joined by a newline is the union of their
    dictionaries, in which the entries of the second text go before those
    of the first. *)
Theorem extract_of_joined_documents (doc1 doc2 : str) (m1 m2 : gmap str Candidate) :
  extract_abbreviation_definition_pairs (Some doc1) = Ok m1 ->
  extract_abbreviation_definition_pairs (Some doc2) = Ok m2 ->
  extract_abbreviation_definition_pairs (Some (doc1 ++ NEWLINE :: doc2))
  = Ok (m2 ∪ m1).
Proof.
  rewrite !extract_by_lines. unfold yield_lines_from_doc.
  rewrite split_on_app, map_app, process_sentences_app.
  destruct (process_sentences (map strip (split_on NEWLINE doc1)) _)
    as [st1| |]; simpl; try done.
  intros [= <-].
  destruct (process_sentences (map strip (split_on NEWLINE doc2)) (mkState ∅ 0 0))
    as [st2| |] eqn:Hrun2; simpl; try done.
  intros [= <-].
  destruct (process_sentences_total (map strip (split_on NEWLINE doc2)) st1)
    as [st12 Hrun12].
  rewrite Hrun12. simpl.
  destruct (process_sentences_union _ _ _ (mkState ∅ 0 0) (abbrev_map st1) Hrun12)
    as (st2' & Hrun2' & ->).
  { simpl. by rewrite (left_id_L ∅ (∪)). }
  rewrite Hrun2 in Hrun2'. by injection Hrun2' as <-.
Qed.

Lemma process_candidates_provenance sentence candidates st st' abbrev definition :
  process_candidates sentence candidates st = Ok st' ->
  abbrev_map st' !! abbrev = Some definition ->
  abbrev_map st !! abbrev = Some definition
  \/ exists candidate located,
      candidate ∈ candidates
      /\ value candidate = abbrev
      /\ get_definition candidate sentence = Ok located
      /\ select_definition located candidate = Ok definition.
Proof.
  revert st. induction candidates as [|candidate rest IH]; intros st; simpl.
  - intros [= <-]. by left.
  - unfold process_candidate.
    destruct (get_definition candidate sentence) as [located|[r|]|] eqn:Hget;
      simpl; try done.
    + destruct (select_definition located candidate) as [definition'|[r|]|] eqn:Hsel;
        simpl; try done; intros Hrest Hlook;
        destruct (IH _ Hrest Hlook) as [Hold|(c & l & Hin & ?)];
        try (by left); try (right; exists c, l; split; [by right|done]).
      simpl in Hold. apply lookup_insert_Some in Hold as [[<- <-]|[_ Hold]];
        [|by left].
      right. exists candidate, located. split; [by left|done].
    + intros Hrest Hlook.
      destruct (IH _ Hrest Hlook) as [Hold|(c & l & Hin & ?)]; [by left|].
      right. exists c, l. split; [by right|done].
Qed.

Lemma process_sentences_provenance sentences st st' abbrev definition :
  process_sentences sentences st = Ok st' ->
  abbrev_map st' !! abbrev = Some definition ->
  abbrev_map st !! abbrev = Some definition
  \/ exists sentence, sentence ∈ sentences /\ produced_on sentence abbrev definition.
Proof.
  revert st. induction sentences as [|sentence rest IH]; intros st; simpl.
  - intros [= <-]. by left.
  - destruct (process_sentence sentence st) as [st1| |] eqn:Hrun; simpl; try done.
    intros Hrest Hlook.
    destruct (IH _ Hrest Hlook) as [Hold|(s & Hin & Hprod)];
      [|right; exists s; split; [by right|done]].
    unfold process_sentence in Hrun.
    destruct (best_candidates sentence) as [candidates|[r|]|] eqn:Hbest; try done.
    + destruct (process_candidates_provenance _ _ _ _ _ _ Hrun Hold)
        as [?|(c & l & Hin & Hv & Hget & Hsel)]; [by left|].
      right. exists sentence. split; [by left|]. by exists candidates, c, l.
    + injection Hrun as <-. by left.
Qed.

Lemma entry_provenance (doc_text : str) (m : gmap str Candidate)
    (abbrev : str) (definition : Candidate) :
  extract_abbreviation_definition_pairs (Some doc_text) = Ok m ->
  m !! abbrev = Some definition ->
  exists sentence,
    sentence ∈ yield_lines_from_doc doc_text
    /\ produced_on sentence abbrev definition.
Proof.
  rewrite extract_by_lines.
  destruct (process_sentences _ _) as [st| |] eqn:Hrun; simpl; try done.
  intros [= <-] Hlook.
  destruct (process_sentences_provenance _ _ _ _ _ Hrun Hlook) as [Hold|?]; [|done].
  simpl in Hold. by rewrite lookup_empty in Hold.
Qed.

(** X12: Every entry of the dictionary that
    [extract_abbreviation_definition_pairs] returns was produced on a line
    of the text: the finder yields its key there, the locator returns a
    definition for it, and the validator returns its value. *)
Theorem every_entry_comes_from_a_line (doc_text : str) (m : gmap str Candidate)
    (abbrev : str) (definition : Candidate) :
  extract_abbreviation_definition_pairs (Some doc_text) = Ok m ->
  m !! abbrev = Some definition ->
  exists sentence,
    sentence ∈ yield_lines_from_doc doc_text
    /\ produced_on sentence abbrev definition.
Proof. apply entry_provenance. Qed.
End OrchestratorTheorems.

Section ResultTheorems.
Context `{U : Unicode}.
Local Arguments slice : simpl never.
Local Arguments count : simpl never.

Lemma select_definition_offsets definition abbrev definition' :
  select_definition definition abbrev = Ok definition' ->
  start definition' = start definition /\ stop definition' = stop definition.
Proof.
  unfold select_definition.
  destruct (_ <? _); [done|]. destruct (contains _ _); [done|].
  destruct (sd_loop _ _ _ _ _) as [lindex| |]; simpl; try done.
  destruct (_ >? _); [done|]. destruct (negb _); [done|].
  by intros [= <-].
Qed.

Lemma narrowed_ends_at_stop
    (candidate : Candidate) (sentence : str) (located definition : Candidate) :
  1 <= start candidate <= len sentence + 1 ->
  get_definition candidate sentence = Ok located ->
  select_definition located candidate = Ok definition ->
  stop definition = stop located
  /\ stop definition < start candidate
  /\ 0 <= stop definition - len (value definition)
  /\ value definition
     = slice sentence (stop definition - len (value definition)) (stop definition).
Proof.
  intros Hstart Hget Hsel.
  destruct (get_definition_span _ _ _ Hstart Hget)
    as (Ha & Hb & Hv & _).
  destruct (select_definition_offsets _ _ _ Hsel) as [_ Hstop].
  destruct (select_definition_post _ _ _ Hsel)
    as ((front & Hfront & Hne & _) & _).
  assert (start located < stop located) as Hlt.
  { destruct (decide (start located < stop located)) as [|Hge]; [done|].
    rewrite slice_empty in Hv by lia. rewrite Hv in Hfront.
    symmetry in Hfront. apply app_eq_nil in Hfront as [_ ?]. done. }
  assert (len (value located) = stop located - start located) as Hlen
      by (rewrite Hv; apply len_slice_nonneg; lia).
  rewrite Hfront, len_app in Hlen.
  pose proof (len_nonneg front) as Hf.
  pose proof (len_nonneg (value definition)) as Hd.
  rewrite Hstop. repeat split; try lia.
  assert (value definition = drop (length front) (value located)) as Hdrop
      by (by rewrite Hfront, drop_app_length).
  rewrite Hdrop at 1. rewrite Hv. rewrite !slice_nonneg by lia.
  rewrite List.skipn_firstn_comm, drop_drop.
  unfold len in *.
  replace (Z.to_nat (start located) + length front)%nat
    with (Z.to_nat (stop located - Z.of_nat (length (value definition)))) by lia.
  f_equal. lia.
Qed.

(** X11: The definition that the validator returns for a located definition
    ends where the located one ends, in front of the candidate: its value
    is the slice of the sentence that ends at its [stop] and has its
    length. *)
Theorem validated_definition_ends_at_stop
    (candidate : Candidate) (sentence : str) (located definition : Candidate) :
  1 <= start candidate <= len sentence + 1 ->
  get_definition candidate sentence = Ok located ->
  select_definition located candidate = Ok definition ->
  stop definition = stop located
  /\ stop definition < start candidate
  /\ 0 <= stop definition - len (value definition)
  /\ value definition
     = slice sentence (stop definition - len (value definition)) (stop definition).
Proof. apply narrowed_ends_at_stop. Qed.

(** X13: Every key of the returned dictionary is text that [conditions]
    accepts: it has at least two characters, contains a letter, and has no
    white space at either end. *)
Theorem keys_of_the_result (doc_text : str) (m : gmap str Candidate)
    (abbrev : str) (definition : Candidate) :
  extract_abbreviation_definition_pairs (Some doc_text) = Ok m ->
  m !! abbrev = Some definition ->
  conditions abbrev = Ok true
  /\ 2 <= len abbrev
  /\ strip abbrev = abbrev
  /\ exists c, c ∈ abbrev /\ is_letter c = true.
Proof.
  intros Hrun Hlook.
  destruct (entry_provenance _ _ _ _ Hrun Hlook)
    as (sentence & _ & candidates & candidate & located & Hbest & Hin & <- & _).
  apply best_candidates_spans in Hbest as [Hall _].
  rewrite Forall_forall in Hall.
  destruct (Hall _ Hin) as ((_ & _ & _ & Hstrip) & _ & Hcond).
  destruct (conditions_accepts _ Hcond).
  done.
Qed.

(** X14: Every value of the returned dictionary is a non-empty piece of a line
    of the text, namely the slice of that line that ends at the value's
    [stop] and has its length; it has balanced parentheses and at most
    [min(|A| + 5, 2|A|)] words, [A] being its key. *)
Theorem values_of_the_result (doc_text : str) (m : gmap str Candidate)
    (abbrev : str) (definition : Candidate) :
  extract_abbreviation_definition_pairs (Some doc_text) = Ok m ->
  m !! abbrev = Some definition ->
  value definition ≠ []
  /\ count LPAREN (value definition) = count RPAREN (value definition)
  /\ len (split (value definition)) <= Z.min (len abbrev + 5) (len abbrev * 2)
  /\ exists sentence,
      sentence ∈ yield_lines_from_doc doc_text
      /\ 0 <= stop definition - len (value definition)
      /\ stop definition < len sentence
      /\ value definition
         = slice sentence (stop definition - len (value definition))
                 (stop definition).
Proof.
  intros Hrun Hlook.
  destruct (entry_provenance _ _ _ _ Hrun Hlook)
    as (sentence & Hline & candidates & candidate & located
        & Hbest & Hin & <- & Hget & Hsel).
  apply best_candidates_spans in Hbest as [Hall _].
  rewrite Forall_forall in Hall.
  destruct (Hall _ Hin) as ((Hstart & Hstop & _) & _).
  destruct (select_definition_post _ _ _ Hsel)
    as ((front & _ & Hne & _) & Hwords & Hbal & _).
  assert (1 <= start candidate <= len sentence + 1) as Hrange by lia.
  destruct (narrowed_ends_at_stop _ _ _ _ Hrange Hget Hsel)
    as (_ & Hbefore & Hnonneg & Hslice).
  repeat split; try done.
  exists sentence. repeat split; try done; lia.
Qed.

Lemma process_sentences_no_parenthesis sentences st :
  Forall (fun sentence => contains LPAREN sentence = false) sentences ->
  process_sentences sentences st = Ok st.
Proof.
  induction 1 as [|sentence rest Hno _ IH]; simpl; [done|].
  unfold process_sentence, best_candidates. by rewrite Hno.
Qed.

(** X16: A text without an opening parenthesis gives the empty dictionary. *)
Theorem no_parenthesis_no_entry (doc_text : str) :
  LPAREN ∉ doc_text ->
  extract_abbreviation_definition_pairs (Some doc_text) = Ok ∅.
Proof.
  intros Hno. rewrite extract_by_lines.
  rewrite process_sentences_no_parenthesis; [done|].
  apply Forall_forall. intros line Hin.
  unfold yield_lines_from_doc in Hin.
  apply list_elem_of_In, in_map_iff in Hin as (piece & <- & Hin).
  apply list_elem_of_In in Hin.
  apply not_true_is_false. intros Hc. apply Hno.
  unfold contains in Hc. apply existsb_exists in Hc as (c & Hc & Heq).
  apply bool_decide_eq_true in Heq as ->.
  apply list_elem_of_In in Hc.
  eapply elem_of_sublist in Hc; [|apply strip_sublist].
  by destruct (split_on_pieces _ _ _ _ Hin Hc).
Qed.

Lemma process_candidates_counters sentence candidates st st' :
  process_candidates sentence candidates st = Ok st' ->
  omit st' + written st' = omit st + written st + len candidates
  /\ written st <= written st'
  /\ omit st <= omit st'
  /\ Z.of_nat (size (abbrev_map st')) - written st'
     <= Z.of_nat (size (abbrev_map st)) - written st.
Proof.
  revert st. induction candidates as [|candidate rest IH]; intros st; simpl.
  - intros [= <-]. rewrite len_nil. lia.
  - rewrite len_cons. unfold process_candidate.
    destruct (get_definition candidate sentence) as [located|[r|]|]; simpl;
      try done.
    + destruct (select_definition located candidate) as [definition|[r|]|];
        simpl; try done; intros Hrest%IH; simpl in Hrest; try lia.
      pose proof (map_size_insert (value candidate) definition (abbrev_map st))
        as Hsize.
      destruct (abbrev_map st !! value candidate); simpl in Hsize;
        unfold id in Hsize; lia.
    + intros Hrest%IH. simpl in Hrest. lia.
Qed.

Lemma process_sentences_counters sentences st st' :
  process_sentences sentences st = Ok st' ->
  omit st' + written st' = omit st + written st + candidates_yielded sentences
  /\ written st <= written st'
  /\ omit st <= omit st'
  /\ Z.of_nat (size (abbrev_map st')) - written st'
     <= Z.of_nat (size (abbrev_map st)) - written st.
Proof.
  revert st. induction sentences as [|sentence rest IH]; intros st; simpl.
  - intros [= <-]. lia.
  - destruct (process_sentence sentence st) as [st1| |] eqn:Hrun; simpl; try done.
    intros Hrest%IH. unfold process_sentence in Hrun.
    destruct (best_candidates sentence) as [candidates|[r|]|]; try done.
    + apply process_candidates_counters in Hrun. lia.
    + injection Hrun as <-. lia.
Qed.

(** X17: The two counters that the orchestrator logs account for every
    candidate: run from zero over the lines of a text, [written] and [omit]
    add up to the number of candidates the finder yields, and the
    dictionary has at most [written] entries. *)
Theorem counters_account_for_every_candidate (sentences : list str) (st : state) :
  process_sentences sentences (mkState ∅ 0 0) = Ok st ->
  omit st + written st = candidates_yielded sentences
  /\ 0 <= omit st /\ 0 <= written st
  /\ Z.of_nat (size (abbrev_map st)) <= written st.
Proof.
  intros Hrun%process_sentences_counters. simpl in Hrun.
  rewrite map_size_empty in Hrun. lia.
Qed.
End ResultTheorems.

Section BalancedCandidates.
Context `{U : Unicode}.
Local Arguments count : simpl never.

Lemma count_spaces (x : char) ws :
  isspace x = false -> Forall (fun c => isspace c = true) ws -> count x ws = 0.
Proof.
  intros Hx. induction 1 as [|c ws Hc _ IH]; [done|].
  rewrite count_cons, IH. rewrite decide_False; [done|]. intros ->. congruence.
Qed.

Lemma count_lstrip (x : char) s : isspace x = false -> count x (lstrip s) = count x s.
Proof.
  intros Hx. destruct (lstrip_decompose s) as (ws & Heq & Hws & _).
  rewrite Heq at 2. rewrite count_app, (count_spaces _ _ Hx Hws). lia.
Qed.

Lemma count_strip (x : char) s : isspace x = false -> count x (strip s) = count x s.
Proof.
  intros Hx. unfold strip, rstrip.
  by rewrite count_rev, count_lstrip, count_rev, count_lstrip.
Qed.

(** X4: When parentheses are not white space, every candidate that
    [best_candidates] yields has as many opening as closing parentheses. *)
Theorem candidates_have_balanced_parentheses sentence candidates :
  isspace LPAREN = false -> isspace RPAREN = false ->
  best_candidates sentence = Ok candidates ->
  Forall (fun candidate =>
            count LPAREN (value candidate) = count RPAREN (value candidate))
         candidates.
Proof.
  intros Hl Hr [Hall _]%best_candidates_spans.
  eapply Forall_impl; [exact Hall|]. simpl.
  intros candidate
    (_ & (openindex & closeindex & _ & _ & _ & _ & Hbal & -> & _) & _).
  by rewrite !count_strip.
Qed.

(** X5: [best_candidates] fails in two cases only, both decided on the whole
    sentence before any candidate is looked for: the counts of the two
    parentheses differ, or the first closing parenthesis comes before the
    first opening one.  In every other case it returns its candidates. *)
Theorem best_candidates_failures (sentence : str) :
  match best_candidates sentence with
  | Ok _ =>
      LPAREN ∉ sentence
      \/ (count LPAREN sentence = count RPAREN sentence
          /\ find LPAREN sentence 0 <= find RPAREN sentence 0)
  | Raise (ValueError r) =>
      LPAREN ∈ sentence
      /\ ((r = UnbalancedParentheses
           /\ count LPAREN sentence ≠ count RPAREN sentence)
          \/ (r = FirstParenthesesIsRight
              /\ count LPAREN sentence = count RPAREN sentence
              /\ find RPAREN sentence 0 < find LPAREN sentence 0))
  | Raise IndexError => False
  | OutOfFuel => False
  end.
Proof.
  unfold best_candidates.
  destruct (contains LPAREN sentence) eqn:Hin.
  - assert (LPAREN ∈ sentence) as Hel.
    { unfold contains in Hin. apply existsb_exists in Hin as (c & Hc & Heq).
      apply bool_decide_eq_true in Heq as ->. by apply list_elem_of_In. }
    destruct (count LPAREN sentence =? count RPAREN sentence) eqn:Hcount;
      cbn [negb].
    + apply Z.eqb_eq in Hcount.
      destruct (find LPAREN sentence 0 >? find RPAREN sentence 0) eqn:Hord.
      * split; [done|]. right. repeat split; try done. lia.
      * destruct (best_candidates_loop_total (S (length sentence)) sentence (-1))
          as [candidates ->].
        -- pose proof (len_nonneg sentence). lia.
        -- lia.
        -- unfold len. lia.
        -- right. split; [done|]. lia.
    + apply Z.eqb_neq in Hcount. split; [done|]. left. done.
  - left. intros Hel. apply not_true_iff_false in Hin. apply Hin.
    unfold contains. apply existsb_exists. exists LPAREN.
    split; [by apply list_elem_of_In|by apply bool_decide_eq_true].
Qed.
End BalancedCandidates.

(** Witnesses on ASCII text. *)

Lemma candidates_are_trimmed_spans_witness :
  let sentence := py "the World Health Organization ( WHO ) met" in
  best_candidates (U := ascii_tables) sentence = Ok [mkCandidate 32 35 (py "WHO")]
  /\ Forall (well_cut (U := ascii_tables) sentence) [mkCandidate 32 35 (py "WHO")].
Proof.
  intros sentence.
  assert (best_candidates (U := ascii_tables) sentence
          = Ok [mkCandidate 32 35 (py "WHO")]) as Hbest by (vm_compute; reflexivity).
  split; [exact Hbest|].
  apply (candidates_are_trimmed_spans (U := ascii_tables) sentence _ Hbest).
Defined.

Lemma candidates_are_parenthesised_witness :
  let sentence := py "the World Health Organization ( WHO ) met" in
  best_candidates (U := ascii_tables) sentence = Ok [mkCandidate 32 35 (py "WHO")]
  /\ Forall (enclosed_in (U := ascii_tables) sentence) [mkCandidate 32 35 (py "WHO")].
Proof.
  intros sentence.
  assert (best_candidates (U := ascii_tables) sentence
          = Ok [mkCandidate 32 35 (py "WHO")]) as Hbest by (vm_compute; reflexivity).
  split; [exact Hbest|].
  apply (candidates_are_parenthesised (U := ascii_tables) sentence _ Hbest).
Defined.

Lemma candidates_left_to_right_witness :
  let sentence := py "acid (HCl (aq)) and base (NaOH)" in
  let candidates := [mkCandidate 6 14 (py "HCl (aq)"); mkCandidate 26 30 (py "NaOH")] in
  best_candidates (U := ascii_tables) sentence = Ok candidates
  /\ StronglySorted (fun a b => stop a < start b) candidates.
Proof.
  intros sentence candidates.
  assert (best_candidates (U := ascii_tables) sentence = Ok candidates) as Hbest
      by (vm_compute; reflexivity).
  split; [exact Hbest|].
  apply (candidates_left_to_right (U := ascii_tables) sentence _ Hbest).
Defined.

Lemma candidates_have_balanced_parentheses_witness :
  let sentence := py "acid (HCl (aq)) and base (NaOH)" in
  let candidates := [mkCandidate 6 14 (py "HCl (aq)"); mkCandidate 26 30 (py "NaOH")] in
  best_candidates (U := ascii_tables) sentence = Ok candidates
  /\ Forall (fun candidate =>
               count LPAREN (value candidate) = count RPAREN (value candidate))
            candidates.
Proof.
  intros sentence candidates.
  assert (best_candidates (U := ascii_tables) sentence = Ok candidates) as Hbest
      by (vm_compute; reflexivity).
  split; [exact Hbest|].
  apply (candidates_have_balanced_parentheses (U := ascii_tables) sentence _
           eq_refl eq_refl Hbest).
Defined.

Lemma accepted_candidate_has_two_characters_and_a_letter_witness :
  conditions (U := ascii_tables) (py "5-HT") = Ok true
  /\ 2 <= len (py "5-HT")
  /\ exists c, c ∈ py "5-HT" /\ is_letter (Unicode := ascii_tables) c = true.
Proof.
  assert (conditions (U := ascii_tables) (py "5-HT") = Ok true) as Hc
      by (vm_compute; reflexivity).
  split; [exact Hc|].
  apply (accepted_candidate_has_two_characters_and_a_letter
           (U := ascii_tables) _ Hc).
Defined.

Lemma located_definition_precedes_candidate_witness :
  let sentence := py "the World Health Organization (WHO)" in
  let candidate := mkCandidate 31 34 (py "WHO") in
  let definition := mkCandidate 4 29 (py "World Health Organization") in
  1 <= start candidate <= len sentence + 1
  /\ get_definition (U := ascii_tables) candidate sentence = Ok definition
  /\ 0 <= start definition
  /\ 0 <= stop definition <= start candidate - 1
  /\ value definition = slice sentence (start definition) (stop definition)
  /\ strip (U := ascii_tables) (value definition) = value definition.
Proof.
  intros sentence candidate definition.
  assert (1 <= start candidate <= len sentence + 1) as Hr by (vm_compute; split; discriminate).
  assert (get_definition (U := ascii_tables) candidate sentence = Ok definition)
    as Hg by (vm_compute; reflexivity).
  split; [exact Hr|]. split; [exact Hg|].
  apply (located_definition_precedes_candidate (U := ascii_tables) _ _ _ Hr Hg).
Defined.

Lemma select_definition_postconditions_witness :
  let definition := mkCandidate 0 8 (py "axe area") in
  let abbrev := mkCandidate 10 12 (py "AA") in
  let definition' := mkCandidate 0 8 (py "area") in
  select_definition (U := ascii_tables) definition abbrev = Ok definition'
  /\ exists front,
      value definition = front ++ value definition'
      /\ value definition' ≠ []
      /\ (front = []
          \/ exists c, last front = Some c
                       /\ isalnum (Unicode := ascii_tables) c = false).
Proof.
  intros definition abbrev definition'.
  assert (select_definition (U := ascii_tables) definition abbrev = Ok definition')
    as Hs by (vm_compute; reflexivity).
  split; [exact Hs|].
  apply (select_definition_postconditions (U := ascii_tables) _ _ _ Hs).
Defined.

Lemma validated_abbreviation_is_a_subsequence_witness :
  let definition := mkCandidate 4 29 (py "World Health Organization") in
  let abbrev := mkCandidate 31 34 (py "WHO") in
  Forall (fun c => str_isalnum (U := ascii_tables)
                     (lower (Unicode := ascii_tables) [c]) = true) (value abbrev)
  /\ select_definition (U := ascii_tables) definition abbrev = Ok definition
  /\ exists ca ra cd rd,
      value abbrev = ca :: ra
      /\ value definition = cd :: rd
      /\ lower (Unicode := ascii_tables) [ca] = lower (Unicode := ascii_tables) [cd]
      /\ map (lower1 (U := ascii_tables)) ra
           `sublist_of` map (lower1 (U := ascii_tables)) rd.
Proof.
  intros definition abbrev.
  assert (Forall (fun c => str_isalnum (U := ascii_tables)
                             (lower (Unicode := ascii_tables) [c]) = true)
                 (value abbrev)) as Ha.
  { vm_compute. repeat constructor. }
  assert (select_definition (U := ascii_tables) definition abbrev = Ok definition)
    as Hs by (vm_compute; reflexivity).
  split; [exact Ha|]. split; [exact Hs|].
  apply (validated_abbreviation_is_a_subsequence (U := ascii_tables) _ _ _ Ha Hs).
Defined.

Lemma validated_definition_ends_at_stop_witness :
  let sentence := py "axe area (AA)" in
  let candidate := mkCandidate 10 12 (py "AA") in
  let located := mkCandidate 0 8 (py "axe area") in
  let definition := mkCandidate 0 8 (py "area") in
  1 <= start candidate <= len sentence + 1
  /\ get_definition (U := ascii_tables) candidate sentence = Ok located
  /\ select_definition (U := ascii_tables) located candidate = Ok definition
  /\ stop definition = stop located
  /\ stop definition < start candidate
  /\ 0 <= stop definition - len (value definition)
  /\ value definition
     = slice sentence (stop definition - len (value definition)) (stop definition).
Proof.
  intros sentence candidate located definition.
  assert (1 <= start candidate <= len sentence + 1) as Hr by (vm_compute; split; discriminate).
  assert (get_definition (U := ascii_tables) candidate sentence = Ok located)
    as Hg by (vm_compute; reflexivity).
  assert (select_definition (U := ascii_tables) located candidate = Ok definition)
    as Hs by (vm_compute; reflexivity).
  split; [exact Hr|]. split; [exact Hg|]. split; [exact Hs|].
  apply (validated_definition_ends_at_stop (U := ascii_tables) _ _ _ _ Hr Hg Hs).
Defined.

Lemma every_entry_comes_from_a_line_witness :
  let doc_text := py "intro" ++ [NEWLINE] ++ py "the World Health Organization (WHO)" in
  let m : gmap str Candidate :=
    {[ py "WHO" := mkCandidate 4 29 (py "World Health Organization") ]} in
  extract_abbreviation_definition_pairs (U := ascii_tables) (Some doc_text) = Ok m
  /\ m !! py "WHO" = Some (mkCandidate 4 29 (py "World Health Organization"))
  /\ exists sentence,
      sentence ∈ yield_lines_from_doc (U := ascii_tables) doc_text
      /\ produced_on (U := ascii_tables) sentence (py "WHO")
           (mkCandidate 4 29 (py "World Health Organization")).
Proof.
  intros doc_text m.
  assert (extract_abbreviation_definition_pairs (U := ascii_tables) (Some doc_text)
          = Ok m) as He by (vm_compute; reflexivity).
  assert (m !! py "WHO" = Some (mkCandidate 4 29 (py "World Health Organization")))
    as Hl by (vm_compute; reflexivity).
  split; [exact He|]. split; [exact Hl|].
  apply (every_entry_comes_from_a_line (U := ascii_tables) _ _ _ _ He Hl).
Defined.

Lemma keys_of_the_result_witness :
  let doc_text := py "intro" ++ [NEWLINE] ++ py "the World Health Organization (WHO)" in
  let m : gmap str Candidate :=
    {[ py "WHO" := mkCandidate 4 29 (py "World Health Organization") ]} in
  extract_abbreviation_definition_pairs (U := ascii_tables) (Some doc_text) = Ok m
  /\ m !! py "WHO" = Some (mkCandidate 4 29 (py "World Health Organization"))
  /\ conditions (U := ascii_tables) (py "WHO") = Ok true
  /\ 2 <= len (py "WHO")
  /\ strip (U := ascii_tables) (py "WHO") = py "WHO"
  /\ exists c, c ∈ py "WHO" /\ is_letter (Unicode := ascii_tables) c = true.
Proof.
  intros doc_text m.
  assert (extract_abbreviation_definition_pairs (U := ascii_tables) (Some doc_text)
          = Ok m) as He by (vm_compute; reflexivity).
  assert (m !! py "WHO" = Some (mkCandidate 4 29 (py "World Health Organization")))
    as Hl by (vm_compute; reflexivity).
  split; [exact He|]. split; [exact Hl|].
  apply (keys_of_the_result (U := ascii_tables) _ _ _ _ He Hl).
Defined.

Lemma values_of_the_result_witness :
  let doc_text := py "intro" ++ [NEWLINE] ++ py "axe area (AA)" in
  let definition := mkCandidate 0 8 (py "area") in
  let m : gmap str Candidate := {[ py "AA" := definition ]} in
  extract_abbreviation_definition_pairs (U := ascii_tables) (Some doc_text) = Ok m
  /\ m !! py "AA" = Some definition
  /\ value definition ≠ []
  /\ count LPAREN (value definition) = count RPAREN (value definition)
  /\ len (split (U := ascii_tables) (value definition))
     <= Z.min (len (py "AA") + 5) (len (py "AA") * 2)
  /\ exists sentence,
      sentence ∈ yield_lines_from_doc (U := ascii_tables) doc_text
      /\ 0 <= stop definition - len (value definition)
      /\ stop definition < len sentence
      /\ value definition
         = slice sentence (stop definition - len (value definition))
                 (stop definition).
Proof.
  intros doc_text definition m.
  assert (extract_abbreviation_definition_pairs (U := ascii_tables) (Some doc_text)
          = Ok m) as He by (vm_compute; reflexivity).
  assert (m !! py "AA" = Some definition) as Hl by (vm_compute; reflexivity).
  split; [exact He|]. split; [exact Hl|].
  apply (values_of_the_result (U := ascii_tables) _ _ _ _ He Hl).
Defined.

Lemma extract_of_joined_documents_witness :
  let doc1 := py "World Health Organization (WHO)" ++ [NEWLINE]
              ++ py "United Nations (UN)" in
  let doc2 := py "World Hockey Outfit (WHO)" in
  let m1 : gmap str Candidate :=
    {[ py "WHO" := mkCandidate 0 25 (py "World Health Organization");
       py "UN" := mkCandidate 0 14 (py "United Nations") ]} in
  let m2 : gmap str Candidate :=
    {[ py "WHO" := mkCandidate 0 19 (py "World Hockey Outfit") ]} in
  extract_abbreviation_definition_pairs (U := ascii_tables) (Some doc1) = Ok m1
  /\ extract_abbreviation_definition_pairs (U := ascii_tables) (Some doc2) = Ok m2
  /\ extract_abbreviation_definition_pairs (U := ascii_tables)
       (Some (doc1 ++ NEWLINE :: doc2)) = Ok (m2 ∪ m1).
Proof.
  intros doc1 doc2 m1 m2.
  assert (extract_abbreviation_definition_pairs (U := ascii_tables) (Some doc1)
          = Ok m1) as H1 by (vm_compute; reflexivity).
  assert (extract_abbreviation_definition_pairs (U := ascii_tables) (Some doc2)
          = Ok m2) as H2 by (vm_compute; reflexivity).
  split; [exact H1|]. split; [exact H2|].
  apply (extract_of_joined_documents (U := ascii_tables) _ _ _ _ H1 H2).
Defined.

Lemma no_parenthesis_no_entry_witness :
  let doc_text := py "no abbreviation here" ++ [NEWLINE] ++ py "nor there)" in
  (LPAREN ∉ doc_text)
  /\ extract_abbreviation_definition_pairs (U := ascii_tables) (Some doc_text)
     = Ok ∅.
Proof.
  intros doc_text.
  assert (LPAREN ∉ doc_text) as Hno.
  { apply (bool_decide_unpack _). vm_compute. exact I. }
  split; [exact Hno|].
  apply (no_parenthesis_no_entry (U := ascii_tables) _ Hno).
Defined.

Lemma counters_account_for_every_candidate_witness :
  let sentences := [py "World Health Organization (WHO)"; py "axe (x) (WHO)"] in
  let st := mkState {[ py "WHO" := mkCandidate 0 25 (py "World Health Organization") ]}
                    1 1 in
  process_sentences (U := ascii_tables) sentences (mkState ∅ 0 0) = Ok st
  /\ omit st + written st = candidates_yielded (U := ascii_tables) sentences
  /\ 0 <= omit st /\ 0 <= written st
  /\ Z.of_nat (size (abbrev_map st)) <= written st.
Proof.
  intros sentences st.
  assert (process_sentences (U := ascii_tables) sentences (mkState ∅ 0 0) = Ok st)
    as Hrun by (vm_compute; reflexivity).
  split; [exact Hrun|].
  apply (counters_account_for_every_candidate (U := ascii_tables) _ _ Hrun).
Defined.

(** ** Matching parentheses and the first rule of [conditions] *)

Section Matching.
Context `{U : Unicode}.
Local Arguments find_close : simpl never.
Local Arguments conditions : simpl never.
Local Arguments find : simpl never.
Local Arguments slice : simpl never.
Local Arguments count : simpl never.

Lemma find_close_prefix fuel sentence closeindex open closeindex' k :
  0 <= closeindex -> 0 < open ->
  find_close fuel sentence closeindex open = Ok (Some closeindex') ->
  closeindex <= k <= closeindex' - 1 ->
  count RPAREN (slice sentence closeindex k)
  < count LPAREN (slice sentence closeindex k) + open.
Proof.
  revert closeindex open.
  induction fuel as [|fuel IH]; intros closeindex open Hc Hopen;
    unfold find_close; fold find_close.
  - replace (open =? 0) with false by (symmetry; apply Z.eqb_neq; lia). done.
  - replace (open =? 0) with false by (symmetry; apply Z.eqb_neq; lia).
    destruct (getitem sentence closeindex) as [char|] eqn:Hget; [|done].
    intros Hrec Hk.
    destruct (decide (k = closeindex)) as [->|Hne].
    { rewrite slice_empty by lia. rewrite !count_nil. lia. }
    rewrite (slice_cons sentence closeindex k char ltac:(lia) Hget), !count_cons.
    set (open' := if bool_decide (char = LPAREN) then open + 1
                  else if bool_decide (char = RPAREN) then open - 1 else open)
      in Hrec.
    destruct (decide (open' = 0)) as [Hzero|Hpos].
    { rewrite Hzero in Hrec. destruct fuel; unfold find_close in Hrec;
        simpl in Hrec; injection Hrec as <-; lia. }
    assert (0 < open') as Hopen'.
    { unfold open' in *. repeat case_bool_decide; lia. }
    specialize (IH (closeindex + 1) open' ltac:(lia) Hopen' Hrec ltac:(lia)).
    unfold open' in IH.
    repeat case_bool_decide; repeat case_decide; subst;
      try lia; try congruence; exfalso; discriminate.
Qed.

Lemma best_candidates_loop_matched fuel sentence closeindex candidates :
  -1 <= closeindex ->
  best_candidates_loop fuel sentence closeindex = Ok candidates ->
  Forall (matched_in sentence) candidates.
Proof.
  revert closeindex candidates.
  induction fuel as [|fuel IH]; intros closeindex candidates Hc; simpl; [done|].
  destruct (find_range LPAREN sentence (closeindex + 1)) as [Hm|Hopen]; [lia| |].
  { rewrite Hm. simpl. by intros [= <-]. }
  destruct (_ =? -1) eqn:Hm; [by intros [= <-]|].
  apply Z.eqb_neq in Hm.
  pose proof (find_getitem LPAREN sentence (closeindex + 1) ltac:(lia) Hm) as Hparen.
  set (openindex := find LPAREN sentence (closeindex + 1)) in *.
  destruct (find_close _ _ _ _) as [[closeindex'|]| |] eqn:Hclose; simpl; try done.
  - assert (0 <= openindex + 1) as Hnn by lia.
    pose proof (find_close_spec _ _ _ _ _ Hnn Z.lt_0_1 Hclose)
      as (Hlt & Hlast & Hcount).
    set (raw := slice sentence (openindex + 1) (closeindex' - 1)) in *.
    pose proof (trimmed_offsets_slice sentence (openindex + 1) (closeindex' - 1)
                  ltac:(lia) ltac:(lia)) as Htrim.
    fold raw in Htrim.
    destruct (conditions _) as [good| |]; simpl; try done.
    destruct (best_candidates_loop fuel sentence closeindex')
      as [rest| |] eqn:Hrest; simpl; try done.
    intros [= <-]. apply IH in Hrest; [|lia].
    destruct good; [|done]. constructor; [|done].
    exists openindex, (closeindex' - 1). simpl.
    repeat split; try done; try lia.
    + fold raw. lia.
    + intros k Hk.
      pose proof (find_close_prefix _ _ _ _ _ k Hnn Z.lt_0_1 Hclose Hk). lia.
  - intros Hrest. apply IH in Hrest; [done|lia].
Qed.

(** X19: The closing parenthesis that ends a candidate is the one that closes
    the parenthesis opening it: the text between the two is balanced, and
    at no place between the two have more parentheses been closed than
    opened, so no closing parenthesis in front of it closes the opening
    one. *)
Theorem candidates_end_at_the_matching_parenthesis sentence candidates :
  best_candidates sentence = Ok candidates ->
  Forall (matched_in sentence) candidates.
Proof.
  unfold best_candidates.
  destruct (contains _ _); [|by intros [= <-]].
  destruct (negb _); [done|]. destruct (_ >? _); [done|].
  by apply best_candidates_loop_matched.
Qed.

Lemma re_group_tail (c : char) (r : str) :
  is_letter c = true -> In r (re_group (c :: r)).
Proof.
  intros Hc. unfold re_group. rewrite Hc. apply in_flat_map.
  exists r. split; [apply in_or_app; right; by left|].
  destruct r as [|w t']; [by left|].
  destruct (re_space w); [right; by left|by left].
Qed.

(** X20: A string whose first two characters are letters, the first of them
    not white space, is accepted by [conditions] whatever its length and
    the number of its words: the limits of ten characters and two words
    apply only to what the pattern of the first rule does not match. *)
Theorem two_leading_letters_are_accepted (a b : char) (rest : str) :
  is_letter a = true -> is_letter b = true -> isspace a = false ->
  conditions (a :: b :: rest) = Ok true.
Proof.
  intros Ha Hb Hs. unfold conditions.
  rewrite (lstrip_fixed _ _ Hs).
  assert (re_match_abbrev (a :: b :: rest) = true) as ->; [|done].
  unfold re_match_abbrev. apply existsb_exists.
  exists (b :: rest). split; [by apply re_group_tail|].
  pose proof (re_group_tail b rest Hb) as Hin.
  by destruct (re_group (b :: rest)).
Qed.
End Matching.

Lemma candidates_end_at_the_matching_parenthesis_witness :
  let sentence := py "acid (HCl (aq)) and base (NaOH)" in
  let candidates := [mkCandidate 6 14 (py "HCl (aq)"); mkCandidate 26 30 (py "NaOH")] in
  best_candidates (U := ascii_tables) sentence = Ok candidates
  /\ Forall (matched_in (U := ascii_tables) sentence) candidates.
Proof.
  intros sentence candidates.
  assert (best_candidates (U := ascii_tables) sentence = Ok candidates) as Hbest
      by (vm_compute; reflexivity).
  split; [exact Hbest|].
  apply (candidates_end_at_the_matching_parenthesis (U := ascii_tables)
           sentence _ Hbest).
Defined.

Lemma two_leading_letters_are_accepted_witness :
  conditions (U := ascii_tables) (py "see also Figure 3 for the details") = Ok true.
Proof.
  apply (two_leading_letters_are_accepted (U := ascii_tables) 115%N 101%N
           (py "e also Figure 3 for the details"));
    vm_compute; reflexivity.
Defined.

(** A closing parenthesis in front of the one that ends the candidate does
    not close the parenthesis opening it: up to it, more parentheses have
    been opened than closed. *)
Lemma earlier_parenthesis_does_not_match (sentence : str) (openindex closeindex k : Z) :
  0 <= openindex ->
  (forall j, openindex + 1 <= j <= closeindex ->
             count RPAREN (slice sentence (openindex + 1) j)
             <= count LPAREN (slice sentence (openindex + 1) j)) ->
  openindex < k < closeindex ->
  getitem sentence k = Some RPAREN ->
  count RPAREN (slice sentence (openindex + 1) k)
  < count LPAREN (slice sentence (openindex + 1) k).
Proof.
  intros Ho Hprefix Hk Hget.
  specialize (Hprefix (k + 1) ltac:(lia)).
  rewrite getitem_nonneg_lookup in Hget by lia.
  assert (slice sentence (openindex + 1) (k + 1)
          = slice sentence (openindex + 1) k ++ [RPAREN]) as Hsnoc.
  { rewrite !slice_nonneg by lia.
    replace (Z.to_nat (k + 1) - Z.to_nat (openindex + 1))%nat
      with (S (Z.to_nat k - Z.to_nat (openindex + 1))) by lia.
    apply take_S_r. rewrite lookup_drop. rewrite <- Hget. f_equal. lia. }
  rewrite Hsnoc, !count_app, !count_cons, !count_nil in Hprefix.
  rewrite decide_True in Hprefix by done.
  rewrite decide_False in Hprefix by done. lia.
Qed.

Example earlier_parenthesis_is_not_matched :
  let sentence := py "(x(a) b)" in
  getitem sentence 4 = Some RPAREN
  /\ count LPAREN (slice sentence 1 4) ≠ count RPAREN (slice sentence 1 4)
  /\ best_candidates (U := ascii_tables) sentence
     = Ok [mkCandidate 1 7 (py "x(a) b")].
Proof.
  split; [vm_compute; reflexivity|].
  split; [vm_compute; discriminate|vm_compute; reflexivity].
Qed.

(** Behind white space the character in front of the candidate is not its
    opening parenthesis, and the span that [get_definition] returns holds
    the parenthesis; the validator then rejects it as unbalanced. *)
Example located_span_can_hold_the_parenthesis :
  let sentence := py "the World Health Organization ( WHO ) met" in
  let candidate := mkCandidate 32 35 (py "WHO") in
  let located := mkCandidate 4 31 (py "World Health Organization (") in
  best_candidates (U := ascii_tables) sentence = Ok [candidate]
  /\ getitem sentence 30 = Some LPAREN
  /\ get_definition (U := ascii_tables) candidate sentence = Ok located
  /\ select_definition (U := ascii_tables) located candidate
     = Raise (ValueError UnbalancedDefinition)
  /\ extract_abbreviation_definition_pairs (U := ascii_tables) (Some sentence)
     = Ok ∅.
Proof. repeat split; vm_compute; reflexivity. Qed.
